(** * PII scanner for documentation ([.github/scripts/pii-scanner.py])

    A shallow embedding of the scanner and the properties of its
    scan / filter / classify / gate pipeline.

    Modelling conventions.
    - A Python [str] is a [string].  The text of a document is taken to be
      ASCII, so the Unicode-aware classes of [re] ([\d], [\s], [\b] and
      [re.IGNORECASE]) and [str.strip] are given by their ASCII tables.
      Outside ASCII the tables of [re] and [str] are larger (other
      decimal digits and spaces, letters that fold into [A-Za-z], word
      characters); the properties that depend on the content of the
      tables are stated for ASCII texts, with [is_ascii] and
      [ascii_documents].
    - The patterns of [PII_PATTERNS] and [ALLOWED_PATTERNS] are the
      strings of the source; [Re.compile] parses the fragment of the [re]
      syntax that they use and [Re.matchk] is a backtracking matcher for
      it (greedy quantifiers, leftmost match).
    - A [dict] with the keys [file], [line], [type], [text], [context] is
      the record [violation]; a Python [int] is a [Z].
    - The set of baseline signatures is a [gset string].
    - The directory tree, the reading of a file, the baseline file and
      [sys.argv] are the fields of the record [world].  A baseline file
      that [json.load] accepts is taken to hold what [save_baseline]
      writes, a list of such objects, and writing it is taken to succeed.
      In the source a parsed value of another shape raises in the
      signature comprehension of [main], and [open] raises when the
      file cannot be written; both are uncaught exceptions, so such a
      run is none of the runs that end with [Exited].
    - [print], [sys.exit], an uncaught exception and the writing of the
      baseline file are the effects of the monad [io]: a state with the
      lines printed so far and the baseline file, and early termination. *)

From Stdlib Require Import ZArith Ascii String List Bool Lia.
From Stdlib Require Import DecimalString DecimalPos DecimalZ.
From stdpp Require Import base decidable list strings gmap.

Import ListNotations.
Local Open Scope string_scope.
Local Open Scope list_scope.

(** ** Characters *)

Module Char.

Definition code (c : ascii) : nat := nat_of_ascii c.

Definition between (lo hi : ascii) (c : ascii) : bool :=
  (code lo <=? code c)%nat && (code c <=? code hi)%nat.

Definition is_upper (c : ascii) : bool := between "A" "Z" c.
Definition is_lower (c : ascii) : bool := between "a" "z" c.
Definition is_digit (c : ascii) : bool := between "0" "9" c.

(** [str.isspace] on ASCII: TAB, LF, VT, FF, CR, the separators
    0x1C..0x1F and the space. *)
Definition is_space (c : ascii) : bool :=
  between "009" "013" c || between "028" "031" c || (c =? " ")%char.

(** A word character of [\b] on ASCII: alphanumeric or underscore.  [re]
    also counts the alphanumeric characters outside ASCII. *)
Definition is_word (c : ascii) : bool :=
  is_upper c || is_lower c || is_digit c || (c =? "_")%char.

Definition lower (c : ascii) : ascii :=
  if is_upper c then ascii_of_nat (code c + 32) else c.

Definition upper (c : ascii) : ascii :=
  if is_lower c then ascii_of_nat (code c - 32) else c.

Definition swapcase (c : ascii) : ascii :=
  if is_upper c then lower c else upper c.

End Char.

(** ** Regular expressions: the fragment of [re] used by the tables *)

Module Re.

(** An item of a bracketed set [[...]]. *)
Inductive set_item :=
| SChar (c : ascii)
| SRange (lo hi : ascii)
| SDigit
| SSpace.

Inductive regex :=
| Empty
| Lit (c : ascii)
| Set_ (items : list set_item)
| WordB
| Cat (r1 r2 : regex)
| Group (r : regex)
| Repeat (lo : nat) (hi : option nat) (r : regex).

(** *** Compiling a pattern string *)

Definition is_special (c : ascii) : bool :=
  existsb (Ascii.eqb c)
    ["."; "^"; "$"; "*"; "+"; "?"; "{"; "}"; "|"; "("; ")"; "["; "]"; "\"]%char.

(** Backslash escapes outside a set. *)
Definition parse_escape (e : ascii) : option regex :=
  if (e =? "b")%char then Some WordB
  else if (e =? "d")%char then Some (Set_ [SDigit])
  else if (e =? "s")%char then Some (Set_ [SSpace])
  else if Char.is_word e then None
  else Some (Lit e).

(** Backslash escapes inside a set. *)
Definition parse_set_escape (e : ascii) : option set_item :=
  if (e =? "d")%char then Some SDigit
  else if (e =? "s")%char then Some SSpace
  else if Char.is_word e then None
  else Some (SChar e).

(** The items of a set, up to the closing bracket.  A hyphen is a range
    operator only between two characters; first or last it is itself. *)
Fixpoint parse_set (p : list ascii) : option (list set_item * list ascii) :=
  match p with
  | [] => None
  | c :: p1 =>
      if (c =? "]")%char then Some ([], p1)
      else if (c =? "\")%char then
        match p1 with
        | e :: p2 =>
            match parse_set_escape e, parse_set p2 with
            | Some it, Some (its, p3) => Some (it :: its, p3)
            | _, _ => None
            end
        | [] => None
        end
      else
        match p1 with
        | d :: hi :: p3 =>
            if (d =? "-")%char && negb (hi =? "]")%char && negb (hi =? "\")%char then
              match parse_set p3 with
              | Some (its, p4) => Some (SRange c hi :: its, p4)
              | None => None
              end
            else
              match parse_set p1 with
              | Some (its, p4) => Some (SChar c :: its, p4)
              | None => None
              end
        | _ =>
            match parse_set p1 with
            | Some (its, p4) => Some (SChar c :: its, p4)
            | None => None
            end
        end
  end.

Fixpoint parse_nat (acc : nat) (p : list ascii) : nat * list ascii :=
  match p with
  | c :: p1 =>
      if Char.is_digit c then parse_nat (10 * acc + (Char.code c - 48)) p1
      else (acc, p)
  | [] => (acc, p)
  end.

(** A quantifier after an atom: [?], [+], [{n}], [{n,}], [{n,m}]. *)
Definition parse_quant (a : regex) (p : list ascii) : option (regex * list ascii) :=
  match p with
  | c :: p1 =>
      if (c =? "?")%char then Some (Repeat 0 (Some 1) a, p1)
      else if (c =? "+")%char then Some (Repeat 1 None a, p1)
      else if (c =? "{")%char then
        match p1 with
        | d :: _ =>
            if Char.is_digit d then
              let '(n, p2) := parse_nat 0 p1 in
              match p2 with
              | e :: p3 =>
                  if (e =? "}")%char then Some (Repeat n (Some n) a, p3)
                  else if (e =? ",")%char then
                    match p3 with
                    | f :: p4 =>
                        if (f =? "}")%char then Some (Repeat n None a, p4)
                        else if Char.is_digit f then
                          let '(m, p5) := parse_nat 0 p3 in
                          match p5 with
                          | g :: p6 =>
                              if (g =? "}")%char then Some (Repeat n (Some m) a, p6)
                              else None
                          | [] => None
                          end
                        else None
                    | [] => None
                    end
                  else None
              | [] => None
              end
            else None
        | [] => None
        end
      else Some (a, p)
  | [] => Some (a, p)
  end.

(** One atom; [rec] parses the body of a group. *)
Definition parse_atom (rec : list ascii -> option (regex * list ascii))
    (p : list ascii) : option (regex * list ascii) :=
  match p with
  | [] => None
  | c :: p1 =>
      if (c =? "(")%char then
        let body :=
          match p1 with
          | q :: k :: p2 =>
              if (q =? "?")%char && (k =? ":")%char then p2 else p1
          | _ => p1
          end in
        match rec body with
        | Some (r, d :: p3) =>
            if (d =? ")")%char then Some (Group r, p3) else None
        | _ => None
        end
      else if (c =? "[")%char then
        match parse_set p1 with
        | Some (it :: its, p2) => Some (Set_ (it :: its), p2)
        | _ => None
        end
      else if (c =? "\")%char then
        match p1 with
        | e :: p2 =>
            match parse_escape e with
            | Some r => Some (r, p2)
            | None => None
            end
        | [] => None
        end
      else if is_special c then None
      else Some (Lit c, p1)
  end.

(** A sequence of quantified atoms, up to the end of the pattern or to
    the parenthesis that closes the enclosing group. *)
Fixpoint parse_seq (fuel : nat) (p : list ascii) : option (regex * list ascii) :=
  match fuel with
  | O => None
  | S fuel' =>
      match p with
      | [] => Some (Empty, [])
      | c :: _ =>
          if (c =? ")")%char then Some (Empty, p)
          else
            match parse_atom (parse_seq fuel') p with
            | Some (a, p1) =>
                match parse_quant a p1 with
                | Some (q, p2) =>
                    match parse_seq fuel' p2 with
                    | Some (r, p3) => Some (Cat q r, p3)
                    | None => None
                    end
                | None => None
                end
            | None => None
            end
      end
  end.

(** [re.compile]: [None] for a pattern outside the fragment. *)
Definition compile (pattern : string) : option regex :=
  let p := list_ascii_of_string pattern in
  match parse_seq (S (List.length p)) p with
  | Some (r, []) => Some r
  | _ => None
  end.

(** *** Matching, with [re.IGNORECASE] *)

(** Membership in an item of a set, on ASCII: [\d] is 0-9 and [\s] is
    [Char.is_space].  On a [str], [re] also takes the decimal digits and
    the spaces outside ASCII. *)
Definition item_has (it : set_item) (c : ascii) : bool :=
  match it with
  | SChar x => (c =? x)%char
  | SRange lo hi => Char.between lo hi c
  | SDigit => Char.is_digit c
  | SSpace => Char.is_space c
  end.

(** Under [re.IGNORECASE] a character is in a set when one of its two
    cases is.  On ASCII a character has the two cases of
    [Char.swapcase]; outside ASCII, [re] folds a few more letters
    (U+0130, U+0131, U+017F, U+212A) into the letter ranges. *)
Definition set_has (items : list set_item) (c : ascii) : bool :=
  existsb (fun it => item_has it c || item_has it (Char.swapcase c)) items.

Definition lit_eq (x c : ascii) : bool :=
  (Char.lower c =? Char.lower x)%char.

Definition word_before (prev : option ascii) : bool :=
  match prev with Some c => Char.is_word c | None => false end.

Definition word_after (s : string) : bool :=
  match s with String c _ => Char.is_word c | EmptyString => false end.

Definition below (hi : option nat) (count : nat) : bool :=
  match hi with Some h => (count <? h)%nat | None => true end.

(** The backtracking matcher, in continuation-passing style: [prev] is
    the character before the current position (for [\b]), [s] the rest
    of the subject, [k] what remains to be matched.  The result is the
    rest of the subject after the whole match.  A repetition is greedy:
    it tries one more iteration first and falls back to the
    continuation.  Its iterations are bounded by the length of the rest
    of the subject, which is exact whenever an iteration consumes a
    character, as every repeated sub-pattern of the tables does. *)
Fixpoint matchk (r : regex) (prev : option ascii) (s : string)
    (k : option ascii -> string -> option string) {struct r} : option string :=
  match r with
  | Empty => k prev s
  | Lit x =>
      match s with
      | String c s' => if lit_eq x c then k (Some c) s' else None
      | EmptyString => None
      end
  | Set_ items =>
      match s with
      | String c s' => if set_has items c then k (Some c) s' else None
      | EmptyString => None
      end
  | WordB => if xorb (word_before prev) (word_after s) then k prev s else None
  | Cat r1 r2 => matchk r1 prev s (fun prev' s' => matchk r2 prev' s' k)
  | Group r1 => matchk r1 prev s k
  | Repeat lo hi r1 =>
      (fix loop (fuel count : nat) (prev : option ascii) (s : string)
           {struct fuel} : option string :=
         let stop := if (lo <=? count)%nat then k prev s else None in
         match fuel with
         | O => stop
         | S fuel' =>
             if below hi count then
               match matchk r1 prev s
                       (fun prev' s' => loop fuel' (S count) prev' s') with
               | Some rest => Some rest
               | None => stop
               end
             else stop
         end) (String.length s) O prev s
  end.

(** A match starting exactly at the current position: the rest of the
    subject after it. *)
Definition match_at (r : regex) (prev : option ascii) (s : string) : option string :=
  matchk r prev s (fun _ rest => Some rest).

Fixpoint take (n : nat) (s : string) : string :=
  match n, s with
  | S n', String c s' => String c (take n' s')
  | _, _ => EmptyString
  end.

(** [re.search(...) is not None]: is there a match at some position? *)
Fixpoint search_from (r : regex) (prev : option ascii) (s : string) : bool :=
  match match_at r prev s with
  | Some _ => true
  | None =>
      match s with
      | String c s' => search_from r (Some c) s'
      | EmptyString => false
      end
  end.

Definition search (r : regex) (s : string) : bool := search_from r None s.

(** [m.group() for m in re.finditer(...)]: the texts of the leftmost
    non-overlapping matches, in order.  [skip] counts the characters
    still inside the previous match. *)
Fixpoint finditer_from (r : regex) (prev : option ascii) (s : string)
    (skip : nat) : list string :=
  match skip, s with
  | S skip', String c s' => finditer_from r (Some c) s' skip'
  | S _, EmptyString => []
  | O, _ =>
      match match_at r prev s with
      | Some rest =>
          let n := (String.length s - String.length rest)%nat in
          take n s ::
            match s with
            | String c s' => finditer_from r (Some c) s' (n - 1)
            | EmptyString => []
            end
      | None =>
          match s with
          | String c s' => finditer_from r (Some c) s' O
          | EmptyString => []
          end
      end
  end.

Definition finditer (r : regex) (s : string) : list string :=
  finditer_from r None s O.

(** A pattern of the tables, compiled; a pattern outside the fragment
    would match nothing. *)
Definition pattern (p : string) : regex :=
  match compile p with
  | Some r => r
  | None => Set_ []
  end.

End Re.

(** ** Python values and helpers *)

(** [str(n)] for an [int]. *)
Definition str_int (n : Z) : string := NilZero.string_of_int (Z.to_int n).

(** [len(l)]. *)
Definition len {A} (l : list A) : Z := Z.of_nat (List.length l).

(** Truth value of a list: non-empty. *)
Definition truthy {A} (l : list A) : bool :=
  match l with [] => false | _ :: _ => true end.

(** [s.endswith(suffix)]. *)
Definition endswith (s suffix : string) : bool :=
  let n := String.length s in
  let m := String.length suffix in
  (m <=? n)%nat && String.eqb (String.substring (n - m) m s) suffix.

(** [s.startswith(prefix)]. *)
Definition startswith (s prefix : string) : bool := String.prefix prefix s.

(** [content.split('\n')]: always at least one piece. *)
Fixpoint split_newline (content : string) : list string :=
  match content with
  | EmptyString => [EmptyString]
  | String c rest =>
      if (c =? "010")%char then EmptyString :: split_newline rest
      else
        match split_newline rest with
        | piece :: pieces => String c piece :: pieces
        | [] => [String c EmptyString]
        end
  end.

Fixpoint lstrip (s : string) : string :=
  match s with
  | String c s' => if Char.is_space c then lstrip s' else s
  | EmptyString => EmptyString
  end.

Fixpoint rstrip (s : string) : string :=
  match s with
  | String c s' =>
      match rstrip s' with
      | EmptyString => if Char.is_space c then EmptyString else String c EmptyString
      | r => String c r
      end
  | EmptyString => EmptyString
  end.

(** [line.strip()] on ASCII: the white space removed is that of
    [Char.is_space]; [str.strip] also removes the spaces outside
    ASCII. *)
Definition strip (s : string) : string := rstrip (lstrip s).

(** ** The tables *)

(** [PII_PATTERNS], in insertion order. *)
Definition PII_PATTERNS : list (string * string) :=
  [ ("email", "\b[A-Za-z0-9._%+-]+@[A-Za-z0-9.-]+\.[A-Z|a-z]{2,}\b");
    ("us_phone", "(\+1[-.\s]?)?\(?([0-9]{3})\)?[-.\s]?([0-9]{3})[-.\s]?([0-9]{4})");
    ("ssn", "\b\d{3}-\d{2}-\d{4}\b");
    ("credit_card", "\b(?:\d{4}[-\s]?){3}\d{4}\b") ].

Definition ALLOWED_PATTERNS : list string :=
  [ "example@example\.com";
    "test@test\.com";
    "user@domain\.com";
    "\+1234567890";
    "\+1555[0-9]{7}";
    "123-456-7890" ].

(** ** Findings *)

(** The dict that [scan_file] appends. *)
Record violation := {
  v_file : string;
  v_line : Z;
  v_type : string;
  v_text : string;
  v_context : string
}.

#[global] Instance violation_eq_dec : EqDecision violation.
Proof. solve_decision. Defined.

(** The identifying tuple of the data model. *)
Definition ident (v : violation) : string * Z * string * string :=
  (v_file v, v_line v, v_type v, v_text v).

(** The signature string built in [main]. *)
Definition signature (v : violation) : string :=
  v_file v +:+ ":" +:+ str_int (v_line v) +:+ ":" +:+ v_type v +:+ ":" +:+ v_text v.

Definition is_allowed_pattern (text : string) : bool :=
  existsb (fun pattern => Re.search (Re.pattern pattern) text) ALLOWED_PATTERNS.

(** The body of the loop over the lines of a file, for one line. *)
Definition scan_line (file : string) (line_num : Z) (line : string) : list violation :=
  flat_map (fun '(pii_type, pattern) =>
    flat_map (fun matched_text =>
      if negb (is_allowed_pattern matched_text) then
        [ {| v_file := file;
             v_line := line_num;
             v_type := pii_type;
             v_text := matched_text;
             v_context := Re.take 100 (strip line) |} ]
      else [])
      (Re.finditer (Re.pattern pattern) line))
    PII_PATTERNS.

(** [for line_num, line in enumerate(lines, line_num)]. *)
Fixpoint scan_lines (file : string) (line_num : Z) (lines : list string) : list violation :=
  match lines with
  | [] => []
  | line :: rest => scan_line file line_num line ++ scan_lines file (line_num + 1) rest
  end.

(** ** The environment of a run *)

(** A path below the working directory, by components; [path_str] is
    [str(Path(root) / file)]. *)
Definition path := list string.

Definition path_str (p : path) : string := String.concat "/" p.

(** A directory as [os.walk] lists it: sub-directories and other entries. *)
#[local] Unset Elimination Schemes.
Inductive dir :=
| Dir (subdirs : list (string * dir)) (files : list string).
#[local] Set Elimination Schemes.

(** What [open(file_path, 'r', encoding='utf-8')] and [f.read()] give for
    a path: the decoded text (line ends already translated to LF), or
    the message of the exception that one of them raises. *)
Inductive read_result :=
| Content (text : string)
| ReadError (msg : string).

(** The file [.github/pii-baseline.json]: absent, present but not
    parseable by [json.load], or holding a list of finding objects.  A
    file that parses to something else (a value that is no list, or
    objects without one of the keys [file], [type], [text]) has no case
    here: [main] then raises [TypeError] or [KeyError] after
    [load_baseline] has returned. *)
Inductive baseline_state :=
| Absent
| Malformed
| Stored (violations : list violation).

Record world := {
  cwd : dir;
  read_text : string -> read_result;
  baseline_file : baseline_state;
  argv : list string
}.

(** ** The process: output, baseline file, early termination *)

Inductive termination :=
| Exited (code : Z)
| Uncaught (exc : string).

(** Exit status seen by the caller: an uncaught exception gives 1. *)
Definition exit_code (t : termination) : Z :=
  match t with
  | Exited code => code
  | Uncaught _ => 1
  end.

Record proc := {
  stdout : list string;
  baseline : baseline_state
}.

Inductive res (A : Type) :=
| Ret (a : A)
| Stop (t : termination).
Arguments Ret {A} a.
Arguments Stop {A} t.

Definition io (A : Type) : Type := proc -> proc * res A.

#[global] Instance io_ret : MRet io := fun A a st => (st, Ret a).

#[global] Instance io_bind : MBind io := fun A B f m st =>
  match m st with
  | (st', Ret a) => f a st'
  | (st', Stop t) => (st', Stop t)
  end.

Definition print (line : string) : io unit := fun st =>
  ({| stdout := stdout st ++ [line]; baseline := baseline st |}, Ret tt).

Definition sys_exit (code : Z) : io unit := fun st => (st, Stop (Exited code)).

Definition raise {A} (exc : string) : io A := fun st => (st, Stop (Uncaught exc)).

Fixpoint for_each {A} (l : list A) (body : A -> io unit) : io unit :=
  match l with
  | [] => mret tt
  | x :: rest => body x ;; for_each rest body
  end.

Definition when (b : bool) (m : io unit) : io unit :=
  if b then m else mret tt.

(** ** Document discovery *)

(** The filter that the loop body assigns to [dirs[:]]. *)
Definition keep_dir (d : string) : bool :=
  negb (startswith d ".") && negb (String.eqb d "node_modules").

(** [os.walk('.')], top-down: each directory yields its triple
    [(root, dirs, files)], the loop body replaces [dirs] in place by the
    names that [keep] retains, and the walk then descends only into the
    names still in [dirs].  [root] is kept by components below ['.'].
    Symbolic links are not followed and a directory that cannot be listed
    is skipped, as with the default arguments of [os.walk]: the tree
    holds what the walk can list. *)
Fixpoint os_walk (keep : string -> bool) (root : path) (d : dir)
    : list (path * list string * list string) :=
  match d with
  | Dir subdirs files =>
      (root, List.map fst subdirs, files) ::
      (fix descend (l : list (string * dir)) : list (path * list string * list string) :=
         match l with
         | [] => []
         | (name, sub) :: l' =>
             if keep name then os_walk keep (root ++ [name]) sub ++ descend l'
             else descend l'
         end) subdirs
  end.

(** The markdown files, as the first loop of [main] collects them. *)
Definition find_md_files (top : dir) : list path :=
  flat_map (fun '(root, _, files) =>
    flat_map (fun file => if endswith file ".md" then [root ++ [file]] else []) files)
    (os_walk keep_dir [] top).

(** ** Scanning *)

Definition scan_file (w : world) (file_path : path) : io (list violation) :=
  match read_text w (path_str file_path) with
  | Content content =>
      mret (scan_lines (path_str file_path) 1 (split_newline content))
  | ReadError e =>
      print ("Error scanning " +:+ path_str file_path +:+ ": " +:+ e) ;;
      mret []
  end.

(** The loop [for file_path in md_files: all_violations.extend(...)]. *)
Fixpoint scan_files (w : world) (md_files : list path) : io (list violation) :=
  match md_files with
  | [] => mret []
  | file_path :: rest =>
      violations ← scan_file w file_path ;
      more ← scan_files w rest ;
      mret (violations ++ more)
  end.

(** ** Baseline store *)

Definition load_baseline : io (list violation) := fun st =>
  let outcome : io (list violation) :=
    match baseline st with
    | Stored violations => mret violations
    | Malformed => raise "json.decoder.JSONDecodeError"
    | Absent => mret []
    end in
  outcome st.

(** [save_baseline]: the file then holds the findings.  The write is
    taken to succeed; the source neither creates [.github] nor handles
    an error of [open], so where the file cannot be written the run ends
    with an uncaught exception instead. *)
Definition save_baseline (violations : list violation) : io unit := fun st =>
  ({| stdout := stdout st; baseline := Stored violations |}, Ret tt).

Definition baseline_signatures (baseline_violations : list violation) : gset string :=
  list_to_set (signature <$> baseline_violations).

(** The loop that fills [new_violations]. *)
Definition new_of (signatures : gset string) (all_violations : list violation)
    : list violation :=
  List.filter (fun violation => negb (bool_decide (signature violation ∈ signatures)))
    all_violations.

(** ** The gate *)

Definition report_line (new_violations : list violation) (violation : violation) : string :=
  let status := if bool_decide (violation ∈ new_violations) then "NEW" else "EXISTING" in
  "  [" +:+ status +:+ "] " +:+ v_file violation +:+ ":" +:+ str_int (v_line violation)
    +:+ " - " +:+ v_type violation +:+ ": " +:+ v_text violation.

Definition report_new (violation : violation) : io unit :=
  print ("  📍 " +:+ v_file violation +:+ ":" +:+ str_int (v_line violation)) ;;
  print ("     Type: " +:+ v_type violation) ;;
  print ("     Text: " +:+ v_text violation) ;;
  print ("     Context: " +:+ v_context violation) ;;
  print "".

Definition newline : string := String "010" EmptyString.

Definition main (w : world) : io unit :=
  print "🔍 Scanning documentation for PII patterns..." ;;
  let md_files := find_md_files (cwd w) in
  print ("📄 Found " +:+ str_int (len md_files) +:+ " markdown files") ;;
  all_violations ← scan_files w md_files ;
  baseline_violations ← load_baseline ;
  let signatures := baseline_signatures baseline_violations in
  let new_violations := new_of signatures all_violations in
  when (truthy all_violations)
    (print (newline +:+ "⚠️  Found " +:+ str_int (len all_violations)
              +:+ " total PII patterns:") ;;
     for_each all_violations (fun violation =>
       print (report_line new_violations violation))) ;;
  when (truthy new_violations)
    (print (newline +:+ "❌ FAILURE: " +:+ str_int (len new_violations)
              +:+ " new PII violations detected!") ;;
     print (newline +:+ "New violations:") ;;
     for_each new_violations report_new ;;
     print "To fix:" ;;
     print "1. Remove or redact the PII from the files above" ;;
     print "2. Use obviously fake data (e.g., +1234567890, example@example.com)" ;;
     print "3. If this is legitimate test data, add it to ALLOWED_PATTERNS" ;;
     sys_exit 1) ;;
  (if truthy all_violations then
     print (newline +:+ "✅ All " +:+ str_int (len all_violations)
              +:+ " PII patterns are grandfathered (existed in baseline)")
   else
     print (newline +:+ "✅ No PII patterns detected!")) ;;
  when (bool_decide ("--update-baseline" ∈ argv w))
    (save_baseline all_violations ;;
     print "📝 Updated PII baseline").

(** The process as the shell sees it: the program starts with nothing
    printed and the baseline file of the world; falling off the end of
    [main] is exit status 0. *)
Definition start (w : world) : proc :=
  {| stdout := []; baseline := baseline_file w |}.

Definition run (w : world) : proc * termination :=
  match main w (start w) with
  | (st, Ret _) => (st, Exited 0)
  | (st, Stop t) => (st, t)
  end.

(** The findings of a run: what the scanning loop of [main] accumulates. *)
Definition all_violations (w : world) : list violation :=
  match scan_files w (find_md_files (cwd w)) (start w) with
  | (_, Ret violations) => violations
  | (_, Stop _) => []
  end.

(** The baseline as [main] loads it, and the new findings it derives. *)
Definition loaded (b : baseline_state) : list violation :=
  match load_baseline {| stdout := []; baseline := b |} with
  | (_, Ret violations) => violations
  | (_, Stop _) => []
  end.

Definition new_violations (w : world) : list violation :=
  new_of (baseline_signatures (loaded (baseline_file w))) (all_violations w).

(** ** Vocabulary of the properties *)

(** [say lines st]: the state after printing [lines]. *)
Definition say (lines : list string) (st : proc) : proc :=
  {| stdout := stdout st ++ lines; baseline := baseline st |}.

(** [emits m lines a]: [m] only prints [lines] and returns [a]. *)
Definition emits {A} (m : io A) (lines : list string) (a : A) : Prop :=
  forall st, m st = (say lines st, Ret a).

(** What one file contributes, and what scanning it prints. *)
Definition found_in (w : world) (file_path : path) : list violation :=
  match read_text w (path_str file_path) with
  | Content content => scan_lines (path_str file_path) 1 (split_newline content)
  | ReadError _ => []
  end.

Definition error_line (file_path : path) (msg : string) : string :=
  "Error scanning " +:+ path_str file_path +:+ ": " +:+ msg.

Definition log_of (w : world) (file_path : path) : list string :=
  match read_text w (path_str file_path) with
  | Content _ => []
  | ReadError msg => [error_line file_path msg]
  end.

(** The lines of the report, of the failure block and of the verdict. *)
Definition head_lines (w : world) : list string :=
  [ "🔍 Scanning documentation for PII patterns...";
    "📄 Found " +:+ str_int (len (find_md_files (cwd w))) +:+ " markdown files" ]
  ++ flat_map (log_of w) (find_md_files (cwd w)).

Definition report_lines (new all : list violation) : list string :=
  if truthy all then
    (newline +:+ "⚠️  Found " +:+ str_int (len all) +:+ " total PII patterns:")
      :: flat_map (fun v => [report_line new v]) all
  else [].

Definition new_lines (v : violation) : list string :=
  [ "  📍 " +:+ v_file v +:+ ":" +:+ str_int (v_line v);
    "     Type: " +:+ v_type v;
    "     Text: " +:+ v_text v;
    "     Context: " +:+ v_context v;
    "" ].

Definition failure_lines (new : list violation) : list string :=
  [ newline +:+ "❌ FAILURE: " +:+ str_int (len new) +:+ " new PII violations detected!";
    newline +:+ "New violations:" ]
  ++ flat_map new_lines new
  ++ [ "To fix:";
       "1. Remove or redact the PII from the files above";
       "2. Use obviously fake data (e.g., +1234567890, example@example.com)";
       "3. If this is legitimate test data, add it to ALLOWED_PATTERNS" ].

Definition success_line (all : list violation) : string :=
  if truthy all then
    newline +:+ "✅ All " +:+ str_int (len all)
      +:+ " PII patterns are grandfathered (existed in baseline)"
  else newline +:+ "✅ No PII patterns detected!".

Definition update_requested (w : world) : bool :=
  bool_decide ("--update-baseline" ∈ argv w).

(** The same world with another baseline file and other arguments. *)
Definition with_baseline (w : world) (b : baseline_state) (args : list string) : world :=
  {| cwd := cwd w; read_text := read_text w; baseline_file := b; argv := args |}.

(** ** Example worlds *)

Definition lines_text (lines : list string) : string := String.concat newline lines.

(** The scenario of the specification: [docs/a.md] with an address on
    line 3 and the recommended fake phone number on line 5. *)
Definition scenario_world : world :=
  {| cwd := Dir [("docs", Dir [] ["a.md"])] [];
     read_text := fun p =>
       if String.eqb p "docs/a.md" then
         Content (lines_text
           ["# Notes"; ""; "Contact: jane.doe@example.org"; ""; "Call +1234567890"])
       else ReadError "[Errno 2] No such file or directory";
     baseline_file := Absent;
     argv := ["pii-scanner.py"] |}.

(** One document with one address, no baseline yet, and the update flag. *)
Definition update_world : world :=
  {| cwd := Dir [] ["a.md"];
     read_text := fun _ => Content "mail bob@corp.io";
     baseline_file := Absent;
     argv := ["pii-scanner.py"; "--update-baseline"] |}.

(** The same address twice on one line. *)
Definition twice_world : world :=
  {| cwd := Dir [] ["a.md"];
     read_text := fun _ => Content "a@b.co a@b.co";
     baseline_file := Absent;
     argv := ["pii-scanner.py"] |}.

Definition twice_finding : violation :=
  {| v_file := "a.md"; v_line := 1; v_type := "email"; v_text := "a@b.co";
     v_context := "a@b.co a@b.co" |}.

(** No document, and a baseline file that is not JSON. *)
Definition broken_world : world :=
  {| cwd := Dir [] [];
     read_text := fun _ => ReadError "[Errno 2] No such file or directory";
     baseline_file := Malformed;
     argv := ["pii-scanner.py"] |}.

(** A document that only holds allowlisted values. *)
Definition fixture_world : world :=
  {| cwd := Dir [] ["a.md"];
     read_text := fun _ => Content "write to Example@Example.com or +15551234567";
     baseline_file := Absent;
     argv := ["pii-scanner.py"; "--update-baseline"] |}.

Definition fixture_finding : violation :=
  {| v_file := "a.md"; v_line := 1; v_type := "email"; v_text := "Example@Example.com";
     v_context := "write to Example@Example.com or +15551234567" |}.

(** A readable and an unreadable document. *)
Definition unreadable_world : world :=
  {| cwd := Dir [("docs", Dir [] ["bad.md"; "good.md"])] [];
     read_text := fun p =>
       if String.eqb p "docs/good.md" then Content "mail bob@corp.io"
       else ReadError "'utf-8' codec can't decode byte 0xff in position 0";
     baseline_file := Absent;
     argv := ["pii-scanner.py"] |}.

(** A file name with colons, and a baseline entry for another file whose
    text holds the rest of the signature. *)
Definition colon_entry : violation :=
  {| v_file := "x"; v_line := 1; v_type := "email"; v_text := "y.md:2:email:j@k.io";
     v_context := "" |}.

Definition colon_finding : violation :=
  {| v_file := "x:1:email:y.md"; v_line := 2; v_type := "email"; v_text := "j@k.io";
     v_context := "j@k.io" |}.

Definition colon_world : world :=
  {| cwd := Dir [] ["x:1:email:y.md"];
     read_text := fun _ => Content (lines_text [""; "j@k.io"]);
     baseline_file := Stored [colon_entry];
     argv := ["pii-scanner.py"] |}.

(** ** Vocabulary for the shape of a match *)

(** All the characters of a string satisfy [P]. *)
Fixpoint string_forall (P : ascii -> bool) (s : string) : bool :=
  match s with
  | EmptyString => true
  | String c s' => P c && string_forall P s'
  end.

(** The characters that some literal or set of a pattern accepts. *)
Fixpoint may_consume (r : Re.regex) (c : ascii) : bool :=
  match r with
  | Re.Empty | Re.WordB => false
  | Re.Lit x => Re.lit_eq x c
  | Re.Set_ items => Re.set_has items c
  | Re.Cat r1 r2 => may_consume r1 c || may_consume r2 c
  | Re.Group r1 => may_consume r1 c
  | Re.Repeat _ _ r1 => may_consume r1 c
  end.

(** The least and the greatest number of characters of a match. *)
Fixpoint min_len (r : Re.regex) : nat :=
  match r with
  | Re.Empty | Re.WordB => 0
  | Re.Lit _ | Re.Set_ _ => 1
  | Re.Cat r1 r2 => min_len r1 + min_len r2
  | Re.Group r1 => min_len r1
  | Re.Repeat lo _ r1 => lo * min_len r1
  end.

Fixpoint max_len (r : Re.regex) : option nat :=
  match r with
  | Re.Empty | Re.WordB => Some 0
  | Re.Lit _ | Re.Set_ _ => Some 1
  | Re.Cat r1 r2 =>
      match max_len r1, max_len r2 with
      | Some m1, Some m2 => Some (m1 + m2)
      | _, _ => None
      end
  | Re.Group r1 => max_len r1
  | Re.Repeat _ hi r1 =>
      match hi, max_len r1 with
      | Some h, Some m => Some (h * m)
      | _, _ => None
      end
  end.

(** The 256 characters. *)
Definition all_ascii : list ascii := List.map ascii_of_nat (seq 0 256).

(** The number of characters of a string that satisfy [P]. *)
Fixpoint count_chars (P : ascii -> bool) (s : string) : nat :=
  match s with
  | EmptyString => 0
  | String c s' => (if P c then 1 else 0) + count_chars P s'
  end.

(** The least and the greatest number of characters satisfying [P] in a
    match: a literal or a set counts for the least when all that it
    accepts satisfies [P], for the greatest when something does. *)
Fixpoint min_count (P : ascii -> bool) (r : Re.regex) : nat :=
  match r with
  | Re.Empty | Re.WordB => 0
  | Re.Lit x =>
      if forallb (fun c => implb (Re.lit_eq x c) (P c)) all_ascii then 1 else 0
  | Re.Set_ items =>
      if forallb (fun c => implb (Re.set_has items c) (P c)) all_ascii then 1 else 0
  | Re.Cat r1 r2 => min_count P r1 + min_count P r2
  | Re.Group r1 => min_count P r1
  | Re.Repeat lo _ r1 => lo * min_count P r1
  end.

Fixpoint max_count (P : ascii -> bool) (r : Re.regex) : option nat :=
  match r with
  | Re.Empty | Re.WordB => Some 0
  | Re.Lit x =>
      Some (if existsb (fun c => Re.lit_eq x c && P c) all_ascii then 1 else 0)
  | Re.Set_ items =>
      Some (if existsb (fun c => Re.set_has items c && P c) all_ascii then 1 else 0)
  | Re.Cat r1 r2 =>
      match max_count P r1, max_count P r2 with
      | Some m1, Some m2 => Some (m1 + m2)
      | _, _ => None
      end
  | Re.Group r1 => max_count P r1
  | Re.Repeat _ hi r1 =>
      match max_count P r1, hi with
      | Some O, _ => Some 0
      | Some m, Some h => Some (h * m)
      | _, _ => None
      end
  end.

(** What a match of [r] looks like: its characters, its length, how many
    of its characters are of a given sort. *)
Definition consumed_ok (r : Re.regex) (pre : string) : Prop :=
  string_forall (may_consume r) pre = true /\
  min_len r <= String.length pre /\
  (forall m, max_len r = Some m -> String.length pre <= m) /\
  (forall P, min_count P r <= count_chars P pre /\
     forall m, max_count P r = Some m -> count_chars P pre <= m).

(** The loop of a repetition in [Re.matchk], over any matcher [step] for
    one iteration. *)
Definition repeat_loop
    (step : option ascii -> string -> (option ascii -> string -> option string)
            -> option string)
    (lo : nat) (hi : option nat) (k : option ascii -> string -> option string)
    : nat -> nat -> option ascii -> string -> option string :=
  fix loop (fuel count : nat) (prev : option ascii) (s : string)
      {struct fuel} : option string :=
    let stop := if (lo <=? count)%nat then k prev s else None in
    match fuel with
    | O => stop
    | S fuel' =>
        if Re.below hi count then
          match step prev s (fun prev' s' => loop fuel' (S count) prev' s') with
          | Some rest => Some rest
          | None => stop
          end
        else stop
    end.

(** [c] is one of the characters of [chars]. *)
Definition one_of (chars : string) (c : ascii) : bool :=
  existsb (Ascii.eqb c) (list_ascii_of_string chars).

Definition is_letter (c : ascii) : bool := Char.is_upper c || Char.is_lower c.

(** The alphabets of the four kinds of finding. *)
Definition email_char (c : ascii) : bool :=
  is_letter c || Char.is_digit c || one_of "._%+-@|" c.

Definition us_phone_char (c : ascii) : bool :=
  Char.is_digit c || Char.is_space c || one_of "+-.()" c.

Definition ssn_char (c : ascii) : bool := Char.is_digit c || one_of "-" c.

Definition credit_card_char (c : ascii) : bool :=
  Char.is_digit c || Char.is_space c || one_of "-" c.

Definition no_colon (s : string) : bool :=
  string_forall (fun c => negb (c =? ":")%char) s.

(** [has_dir top rel d]: following the names of [rel] from [top] leads
    to the directory [d]. *)
Inductive has_dir : dir -> path -> dir -> Prop :=
| has_dir_here d : has_dir d [] d
| has_dir_below subdirs files name sub rel d :
    In (name, sub) subdirs -> has_dir sub rel d ->
    has_dir (Dir subdirs files) (name :: rel) d.

(** The lower-case form of an ASCII text, A-Z mapped to a-z and nothing
    else changed, which is what [s.lower()] gives on such a text; and a
    finding with its text and context in lower case. *)
Fixpoint lower_string (s : string) : string :=
  match s with
  | EmptyString => EmptyString
  | String c s' => String (Char.lower c) (lower_string s')
  end.

Definition lower_finding (v : violation) : violation :=
  {| v_file := v_file v; v_line := v_line v; v_type := v_type v;
     v_text := lower_string (v_text v);
     v_context := lower_string (v_context v) |}.

(** Two continuations that agree up to the case of what they are given. *)
Definition same_up_to_case (k k' : option ascii -> string -> option string) : Prop :=
  forall prev s,
    k' (option_map Char.lower prev) (lower_string s)
    = option_map lower_string (k prev s).

(** The scope of the character tables: a text all of whose characters
    are ASCII (code below 128), and a world all of whose readable
    documents are such texts.  On such texts [Char], [Re], [strip] and
    [lower_string] are what [re] with [re.IGNORECASE], [str.strip] and
    [str.lower] compute. *)
Definition is_ascii (s : string) : bool :=
  string_forall (fun c => (Char.code c <? 128)%nat) s.

Definition ascii_documents (w : world) : Prop :=
  forall p content, read_text w p = Content content -> is_ascii content = true.

(** * Properties *)

(** ** The tables, compiled *)

Module Tables.
Import Re.

Example email_compiles :
  compile "\b[A-Za-z0-9._%+-]+@[A-Za-z0-9.-]+\.[A-Z|a-z]{2,}\b" =
  Some
    (Cat WordB
      (Cat (Repeat 1 None
              (Set_ [SRange "A" "Z"; SRange "a" "z"; SRange "0" "9";
                     SChar "."; SChar "_"; SChar "%"; SChar "+"; SChar "-"]))
      (Cat (Lit "@")
      (Cat (Repeat 1 None
              (Set_ [SRange "A" "Z"; SRange "a" "z"; SRange "0" "9";
                     SChar "."; SChar "-"]))
      (Cat (Lit ".")
      (Cat (Repeat 2 None (Set_ [SRange "A" "Z"; SChar "|"; SRange "a" "z"]))
      (Cat WordB Empty))))))).
Proof. vm_compute. reflexivity. Qed.

Example us_phone_compiles :
  compile "(\+1[-.\s]?)?\(?([0-9]{3})\)?[-.\s]?([0-9]{3})[-.\s]?([0-9]{4})" =
  let sep := Repeat 0 (Some 1) (Set_ [SChar "-"; SChar "."; SSpace]) in
  let digits n := Group (Cat (Repeat n (Some n) (Set_ [SRange "0" "9"])) Empty) in
  Some
    (Cat (Repeat 0 (Some 1) (Group (Cat (Lit "+") (Cat (Lit "1") (Cat sep Empty)))))
    (Cat (Repeat 0 (Some 1) (Lit "("))
    (Cat (digits 3)
    (Cat (Repeat 0 (Some 1) (Lit ")"))
    (Cat sep
    (Cat (digits 3)
    (Cat sep
    (Cat (digits 4) Empty)))))))).
Proof. vm_compute. reflexivity. Qed.

Example ssn_compiles :
  compile "\b\d{3}-\d{2}-\d{4}\b" =
  let digits n := Repeat n (Some n) (Set_ [SDigit]) in
  Some
    (Cat WordB (Cat (digits 3) (Cat (Lit "-") (Cat (digits 2) (Cat (Lit "-")
      (Cat (digits 4) (Cat WordB Empty))))))).
Proof. vm_compute. reflexivity. Qed.

Example credit_card_compiles :
  compile "\b(?:\d{4}[-\s]?){3}\d{4}\b" =
  let digits n := Repeat n (Some n) (Set_ [SDigit]) in
  Some
    (Cat WordB
      (Cat (Repeat 3 (Some 3)
              (Group (Cat (digits 4)
                (Cat (Repeat 0 (Some 1) (Set_ [SChar "-"; SSpace])) Empty))))
      (Cat (digits 4) (Cat WordB Empty)))).
Proof. vm_compute. reflexivity. Qed.

(** Every pattern of the two tables is in the fragment. *)
Lemma tables_compile :
  forallb (fun p => match compile p with Some _ => true | None => false end)
    (List.map snd PII_PATTERNS ++ ALLOWED_PATTERNS) = true.
Proof. vm_compute. reflexivity. Qed.

(** Leftmost, greedy, non-overlapping matches, with backtracking. *)
Example email_matches :
  finditer (pattern "\b[A-Za-z0-9._%+-]+@[A-Za-z0-9.-]+\.[A-Z|a-z]{2,}\b")
    "a@b.co a@b.co A@B.C| x@y.z_ foo@bar.com."
  = ["a@b.co"; "a@b.co"; "foo@bar.com"].
Proof. vm_compute. reflexivity. Qed.

Example us_phone_matches :
  finditer (pattern "(\+1[-.\s]?)?\(?([0-9]{3})\)?[-.\s]?([0-9]{3})[-.\s]?([0-9]{4})")
    "Call +15551234567 or (555) 123-4567, 123.456.78901234567890"
  = ["+15551234567"; "(555) 123-4567"; "123.456.7890"; "1234567890"].
Proof. vm_compute. reflexivity. Qed.

(** After [+1] ten digits are needed; with nine, the match starts at the
    digit [1] and leaves the sign out. *)
Example us_phone_drops_the_sign :
  finditer (pattern "(\+1[-.\s]?)?\(?([0-9]{3})\)?[-.\s]?([0-9]{3})[-.\s]?([0-9]{4})")
    "Call +1234567890"
  = ["1234567890"].
Proof. vm_compute. reflexivity. Qed.

Example ssn_matches :
  finditer (pattern "\b\d{3}-\d{2}-\d{4}\b")
    "ssn 123-45-6789 1123-45-6789 123-45-67890"
  = ["123-45-6789"].
Proof. vm_compute. reflexivity. Qed.

Example credit_card_matches :
  finditer (pattern "\b(?:\d{4}[-\s]?){3}\d{4}\b")
    "cc 4111 1111-11111111 and 41111111111111112 x"
  = ["4111 1111-11111111"].
Proof. vm_compute. reflexivity. Qed.

End Tables.

(** ** How the process monad runs *)

Lemma say_nil st : say [] st = st.
Proof. destruct st as [out b]. unfold say. simpl. by rewrite app_nil_r. Qed.

Lemma say_say l1 l2 st : say l2 (say l1 st) = say (l1 ++ l2) st.
Proof. unfold say. simpl. by rewrite app_assoc. Qed.

Lemma emits_ret {A} (a : A) : emits (mret a) [] a.
Proof. intros st. by rewrite say_nil. Qed.

Lemma emits_print line : emits (print line) [line] tt.
Proof. by intros st. Qed.

Lemma bind_emits {A B} (m : io A) (f : A -> io B) lines a st :
  emits m lines a -> (m ≫= f) st = f a (say lines st).
Proof. intros Hm. unfold mbind, io_bind. by rewrite Hm. Qed.

Lemma emits_bind {A B} (m : io A) (f : A -> io B) l1 a l2 b :
  emits m l1 a -> emits (f a) l2 b -> emits (m ≫= f) (l1 ++ l2) b.
Proof.
  intros Hm Hf st. rewrite (bind_emits _ _ _ _ _ Hm), Hf. by rewrite say_say.
Qed.

Lemma emits_for_each {A} (body : A -> io unit) (lines : A -> list string) l :
  (forall x, emits (body x) (lines x) tt) ->
  emits (for_each l body) (flat_map lines l) tt.
Proof.
  intros Hbody. induction l as [|x l IH]; simpl.
  - apply emits_ret.
  - eapply emits_bind; [apply Hbody | apply IH].
Qed.

Lemma emits_when (b : bool) m lines :
  emits m lines tt -> emits (when b m) (if b then lines else []) tt.
Proof. intros Hm. destruct b; [exact Hm | apply emits_ret]. Qed.

(** ** Scanning: the value and the log of the scanning loop *)

Lemma scan_file_emits w file_path :
  emits (scan_file w file_path) (log_of w file_path) (found_in w file_path).
Proof.
  unfold scan_file, log_of, found_in.
  destruct (read_text w (path_str file_path)) as [content|msg].
  - apply emits_ret.
  - change [error_line file_path msg] with ([error_line file_path msg] ++ []).
    eapply emits_bind; [apply emits_print | apply emits_ret].
Qed.

Lemma scan_files_emits w md_files :
  emits (scan_files w md_files)
    (flat_map (log_of w) md_files) (flat_map (found_in w) md_files).
Proof.
  induction md_files as [|file_path rest IH]; simpl.
  - apply emits_ret.
  - eapply emits_bind; [apply scan_file_emits |].
    rewrite <- (app_nil_r (flat_map (log_of w) rest)).
    eapply emits_bind; [apply IH | apply emits_ret].
Qed.

Lemma all_violations_eq w :
  all_violations w = flat_map (found_in w) (find_md_files (cwd w)).
Proof. unfold all_violations. by rewrite scan_files_emits. Qed.

(** ** The gate: what [main] prints and how it ends *)

Lemma load_baseline_run st :
  load_baseline st =
    match baseline st with
    | Malformed => (st, Stop (Uncaught "json.decoder.JSONDecodeError"))
    | b => (st, Ret (loaded b))
    end.
Proof. unfold load_baseline, loaded. simpl. by destruct (baseline st). Qed.

Lemma emits_report new all :
  emits (when (truthy all)
           (print (newline +:+ "⚠️  Found " +:+ str_int (len all)
                     +:+ " total PII patterns:") ;;
            for_each all (fun violation => print (report_line new violation))))
    (report_lines new all) tt.
Proof.
  unfold report_lines. apply emits_when.
  change (?x :: ?l) with ([x] ++ l).
  eapply emits_bind; [apply emits_print |].
  apply emits_for_each. intros v. apply emits_print.
Qed.

Lemma emits_report_new v : emits (report_new v) (new_lines v) tt.
Proof.
  unfold report_new, new_lines.
  repeat (change (?x :: ?y :: ?l) with ([x] ++ y :: l);
          eapply emits_bind; [apply emits_print |]).
  apply emits_print.
Qed.

Lemma bind_stop {A B} (m : io A) (f : A -> io B) st st' t :
  m st = (st', Stop t) -> (m ≫= f) st = (st', Stop t).
Proof. intros Hm. unfold mbind, io_bind. by rewrite Hm. Qed.

Lemma failure_block_run new st :
  (print (newline +:+ "❌ FAILURE: " +:+ str_int (len new)
            +:+ " new PII violations detected!") ;;
   print (newline +:+ "New violations:") ;;
   for_each new report_new ;;
   print "To fix:" ;;
   print "1. Remove or redact the PII from the files above" ;;
   print "2. Use obviously fake data (e.g., +1234567890, example@example.com)" ;;
   print "3. If this is legitimate test data, add it to ALLOWED_PATTERNS" ;;
   sys_exit 1) st
  = (say (failure_lines new) st, Stop (Exited 1)).
Proof.
  rewrite !(bind_emits _ _ _ _ _ (emits_print _)).
  rewrite (bind_emits _ _ _ _ _ (emits_for_each _ _ new emits_report_new)).
  rewrite !(bind_emits _ _ _ _ _ (emits_print _)).
  rewrite !say_say. reflexivity.
Qed.

(** The scanning phase of [main], up to the loading of the baseline. *)
Lemma main_unfold w st :
  main w st =
    (load_baseline ≫= fun baseline_violations =>
       let all := all_violations w in
       let new := new_of (baseline_signatures baseline_violations) all in
       when (truthy all)
         (print (newline +:+ "⚠️  Found " +:+ str_int (len all)
                   +:+ " total PII patterns:") ;;
          for_each all (fun violation => print (report_line new violation))) ;;
       when (truthy new)
         (print (newline +:+ "❌ FAILURE: " +:+ str_int (len new)
                   +:+ " new PII violations detected!") ;;
          print (newline +:+ "New violations:") ;;
          for_each new report_new ;;
          print "To fix:" ;;
          print "1. Remove or redact the PII from the files above" ;;
          print "2. Use obviously fake data (e.g., +1234567890, example@example.com)" ;;
          print "3. If this is legitimate test data, add it to ALLOWED_PATTERNS" ;;
          sys_exit 1) ;;
       print (success_line all) ;;
       when (update_requested w)
         (save_baseline all ;; print "📝 Updated PII baseline"))
      (say (head_lines w) st).
Proof.
  unfold main.
  rewrite (bind_emits _ _ _ _ _ (emits_print _)). cbv zeta.
  rewrite (bind_emits _ _ _ _ _ (emits_print _)).
  rewrite (bind_emits _ _ _ _ _ (scan_files_emits w _)).
  rewrite !say_say. rewrite <- all_violations_eq.
  unfold head_lines, success_line, update_requested. simpl app.
  by destruct (truthy (all_violations w)).
Qed.

Lemma main_malformed w st :
  baseline st = Malformed ->
  main w st = (say (head_lines w) st, Stop (Uncaught "json.decoder.JSONDecodeError")).
Proof.
  intros Hb. rewrite main_unfold. unfold mbind at 1, io_bind at 1.
  rewrite load_baseline_run. simpl baseline. by rewrite Hb.
Qed.

Lemma main_loaded w st :
  baseline st <> Malformed ->
  let all := all_violations w in
  let new := new_of (baseline_signatures (loaded (baseline st))) all in
  main w st =
    if truthy new then
      (say (head_lines w ++ report_lines new all ++ failure_lines new) st,
       Stop (Exited 1))
    else
      ({| stdout := stdout st ++ head_lines w ++ report_lines new all
                      ++ [success_line all]
                      ++ (if update_requested w then ["📝 Updated PII baseline"] else []);
          baseline := if update_requested w then Stored all else baseline st |},
       Ret tt).
Proof.
  intros Hb all new. rewrite main_unfold. unfold mbind at 1, io_bind at 1.
  rewrite load_baseline_run. simpl baseline.
  destruct (baseline st) as [| |stored] eqn:Eb; [|done|].
  all: cbv zeta; fold all; fold new.
  all: rewrite (bind_emits _ _ _ _ _ (emits_report new all)), say_say.
  all: destruct (truthy new) eqn:Hnew.
  all: try (unfold when; cbv iota;
            rewrite (bind_stop _ _ _ _ _ (failure_block_run new _));
            by rewrite say_say, <- app_assoc).
  all: unfold when; cbv iota.
  all: rewrite (bind_emits _ _ _ _ _ (emits_ret tt)), say_say, app_nil_r.
  all: rewrite (bind_emits _ _ _ _ _ (emits_print _)), say_say.
  all: destruct (update_requested w).
  all: unfold mbind, io_bind, save_baseline, print, mret, io_ret, say.
  all: cbn [stdout baseline].
  all: by rewrite ?Eb, <- ?app_assoc, ?app_nil_r.
Qed.

(** ** Where a finding comes from *)

Lemma scan_line_inv file line_num line v :
  v ∈ scan_line file line_num line ->
  v_file v = file /\ v_line v = line_num /\
  v_context v = Re.take 100 (strip line) /\
  is_allowed_pattern (v_text v) = false /\
  exists pattern, (v_type v, pattern) ∈ PII_PATTERNS /\
    v_text v ∈ Re.finditer (Re.pattern pattern) line.
Proof.
  unfold scan_line. rewrite list_elem_of_In, in_flat_map.
  intros [[pii_type pattern] [Hp Hin]].
  apply in_flat_map in Hin as [matched_text [Hm Hv]].
  destruct (is_allowed_pattern matched_text) eqn:Hallowed; simpl in Hv; [done|].
  destruct Hv as [<-|[]]. simpl.
  repeat split; try done.
  exists pattern. by rewrite !list_elem_of_In.
Qed.

Lemma scan_lines_inv file lines : forall line_num v,
  v ∈ scan_lines file line_num lines ->
  exists (i : nat) line, lines !! i = Some line /\
    v ∈ scan_line file (line_num + Z.of_nat i) line.
Proof.
  induction lines as [|line rest IH]; intros line_num v; simpl.
  - by intros ?%elem_of_nil.
  - rewrite elem_of_app. intros [Hv|Hv].
    + exists O, line. split; [done|]. by rewrite Z.add_0_r.
    + destruct (IH _ _ Hv) as (i & l & Hl & Hin).
      exists (S i), l. split; [done|].
      by replace (line_num + Z.of_nat (S i))%Z with (line_num + 1 + Z.of_nat i)%Z by lia.
Qed.

Lemma elem_of_flat_map {A B} (f : A -> list B) (l : list A) (y : B) :
  y ∈ flat_map f l <-> exists x, x ∈ l /\ y ∈ f x.
Proof.
  rewrite list_elem_of_In, in_flat_map.
  split; intros [x [H1 H2]]; exists x; by rewrite ?list_elem_of_In in *.
Qed.

(** A finding of a run sits on a line of a discovered, readable file. *)
Lemma all_violations_inv w v :
  v ∈ all_violations w ->
  exists file_path content (i : nat) line,
    file_path ∈ find_md_files (cwd w) /\
    read_text w (path_str file_path) = Content content /\
    split_newline content !! i = Some line /\
    v ∈ scan_line (path_str file_path) (1 + Z.of_nat i) line.
Proof.
  rewrite all_violations_eq, elem_of_flat_map.
  intros (file_path & Hp & Hv). unfold found_in in Hv.
  destruct (read_text w (path_str file_path)) as [content|msg] eqn:Hread.
  - destruct (scan_lines_inv _ _ _ _ Hv) as (i & line & Hl & Hin).
    by exists file_path, content, i, line.
  - by apply elem_of_nil in Hv.
Qed.

Lemma new_of_nil_iff signatures all :
  new_of signatures all = [] <-> forall v, v ∈ all -> signature v ∈ signatures.
Proof.
  unfold new_of. induction all as [|v all IH]; simpl.
  - split; [intros _ v ?%elem_of_nil; done | done].
  - destruct (bool_decide (signature v ∈ signatures)) eqn:Hv; simpl.
    + apply bool_decide_eq_true in Hv. rewrite IH. split.
      * intros H x [->|Hx]%elem_of_cons; auto.
      * intros H x Hx. apply H. by right.
    + apply bool_decide_eq_false in Hv. split; [done|].
      intros H. destruct Hv. apply H. by left.
Qed.

Lemma truthy_false {A} (l : list A) : truthy l = false <-> l = [].
Proof. by destruct l. Qed.

(** ** The run as a whole *)

Lemma run_malformed w :
  baseline_file w = Malformed ->
  run w = (say (head_lines w) (start w), Uncaught "json.decoder.JSONDecodeError").
Proof. intros Hb. unfold run. by rewrite main_malformed. Qed.

Lemma run_loaded w :
  baseline_file w <> Malformed ->
  run w =
    if truthy (new_violations w) then
      (say (head_lines w ++ report_lines (new_violations w) (all_violations w)
              ++ failure_lines (new_violations w)) (start w),
       Exited 1)
    else
      ({| stdout := head_lines w ++ report_lines (new_violations w) (all_violations w)
                      ++ [success_line (all_violations w)]
                      ++ (if update_requested w then ["📝 Updated PII baseline"] else []);
          baseline := if update_requested w then Stored (all_violations w)
                      else baseline_file w |},
       Exited 0).
Proof.
  intros Hb. unfold run. rewrite (main_loaded w (start w) Hb).
  change (baseline (start w)) with (baseline_file w). fold (new_violations w).
  by destruct (truthy (new_violations w)).
Qed.

(** The findings do not depend on the baseline file nor on the arguments. *)
Lemma all_violations_with_baseline w b args :
  all_violations (with_baseline w b args) = all_violations w.
Proof. by rewrite !all_violations_eq. Qed.

(** ** The update flag (C1) *)

(** Whenever the gate fails, the baseline file is left as it was, with
    or without [--update-baseline]: [sys.exit(1)] comes first. *)
Lemma failing_run_keeps_baseline w :
  new_violations w <> [] -> baseline (fst (run w)) = baseline_file w.
Proof.
  intros Hnew.
  assert (baseline_file w <> Malformed ->
          baseline (fst (run w)) = baseline_file w) as Hloaded.
  { intros Hb. rewrite (run_loaded w Hb).
    destruct (truthy (new_violations w)) eqn:Ht; [done|].
    by apply truthy_false in Ht. }
  destruct (baseline_file w) eqn:Hb; try (by apply Hloaded).
  by rewrite (run_malformed w Hb).
Qed.

(** C1, on the code: with [--update-baseline], one document and one new
    finding, the run ends with status 1 and the baseline file is not
    written: it is still absent, and the update line is not printed.
    The claim asks for the baseline to be rewritten with that finding. *)
Theorem update_baseline_skipped_on_failure :
  update_requested update_world = true /\
  new_violations update_world =
    [ {| v_file := "a.md"; v_line := 1; v_type := "email"; v_text := "bob@corp.io";
         v_context := "mail bob@corp.io" |} ] /\
  snd (run update_world) = Exited 1 /\
  baseline (fst (run update_world)) = Absent /\
  "📝 Updated PII baseline" ∉ stdout (fst (run update_world)).
Proof.
  repeat split; try (vm_compute; reflexivity).
  intros Hin. apply list_elem_of_In in Hin. vm_compute in Hin.
  repeat (destruct Hin as [Hin|Hin]; [discriminate Hin|]). exact Hin.
Qed.

(** ** The scenario of the specification (C2) *)

(** C2, on the code: the scan of the scenario yields two findings, not
    one.  On line 5 the phone pattern cannot take the [+1] prefix (nine
    digits follow it), so the match is [1234567890] without the sign, and
    the allowlist entry [\+1234567890] does not cover it. *)
Theorem scenario_reports_the_fake_phone :
  all_violations scenario_world =
    [ {| v_file := "docs/a.md"; v_line := 3; v_type := "email";
         v_text := "jane.doe@example.org";
         v_context := "Contact: jane.doe@example.org" |};
      {| v_file := "docs/a.md"; v_line := 5; v_type := "us_phone";
         v_text := "1234567890";
         v_context := "Call +1234567890" |} ] /\
  new_violations scenario_world = all_violations scenario_world /\
  is_allowed_pattern "+1234567890" = true /\
  is_allowed_pattern "1234567890" = false /\
  exit_code (snd (run scenario_world)) = 1%Z.
Proof. repeat split; vm_compute; reflexivity. Qed.

(** ** The exit status (C3) *)

(** C3 as stated fails on a run that never reaches the gate: no document,
    hence no finding at all, a baseline file that is not JSON, and the
    exit status is 1. *)
Lemma exit_status_counterexample :
  ~ (exit_code (snd (run broken_world)) = 0%Z <-> new_violations broken_world = []).
Proof. intros [_ H]. specialize (H eq_refl). vm_compute in H. discriminate H. Qed.

(** C3, amended: in every run that ends by [sys.exit] or by reaching the
    end of [main], that is without an uncaught exception, the exit status
    is 0 exactly when there is no new finding; and in every run, the exit
    status is 1 as soon as there is a new finding, and 0 only when there
    is none. *)
Theorem exit_status_contract w :
  (forall code, snd (run w) = Exited code ->
     (code = 0%Z <-> new_violations w = [])) /\
  (new_violations w <> [] -> exit_code (snd (run w)) = 1%Z) /\
  (exit_code (snd (run w)) = 0%Z -> new_violations w = []).
Proof.
  assert (snd (run w) = Uncaught "json.decoder.JSONDecodeError" \/
          snd (run w) = Exited (if truthy (new_violations w) then 1 else 0)%Z)
    as [Hrun|Hrun].
  { destruct (baseline_file w) eqn:Hb.
    2: { left. by rewrite (run_malformed w Hb). }
    all: right; rewrite run_loaded by (by rewrite Hb).
    all: by destruct (truthy (new_violations w)). }
  - rewrite Hrun. cbn [exit_code]. split; [|split]; [|done|].
    + intros code Hcode. discriminate Hcode.
    + intros H. discriminate H.
  - rewrite Hrun. cbn [exit_code].
    destruct (truthy (new_violations w)) eqn:Ht.
    + assert (new_violations w <> []) as Hne
        by (intros Hnil; by rewrite Hnil in Ht).
      split; [|split]; [|done|].
      * intros code [= <-]. split; [intros H; discriminate H | done].
      * intros H. discriminate H.
    + apply truthy_false in Ht. split; [|split]; [|done|done].
      intros code [= <-]. by split.
Qed.

(** The two ways a run of the contract ends: the scenario fails the gate,
    the fixture world passes it. *)
Example exit_status_examples :
  snd (run scenario_world) = Exited 1 /\ new_violations scenario_world <> [] /\
  snd (run fixture_world) = Exited 0 /\ new_violations fixture_world = [].
Proof.
  repeat split; try (vm_compute; reflexivity).
  intros H. vm_compute in H. discriminate H.
Qed.

(** ** The identifying tuple (C4) *)

(** C4 as stated fails: an address written twice on a line is reported
    twice, so the list of identifying tuples has a repetition. *)
Lemma findings_not_deduplicated :
  ~ NoDup (ident <$> all_violations twice_world).
Proof.
  replace (all_violations twice_world) with [twice_finding; twice_finding]
    by (vm_compute; reflexivity).
  intros Hnd. apply NoDup_cons in Hnd as [Hnotin _].
  apply Hnotin. by left.
Qed.

(** C4, amended: the findings of a scan that share the identifying tuple
    agree on the context too, they are the same record; the scan does not
    remove repetitions. *)
Theorem same_ident_same_finding w v1 v2 :
  v1 ∈ all_violations w -> v2 ∈ all_violations w ->
  ident v1 = ident v2 -> v1 = v2.
Proof.
  intros H1 H2 Hid.
  destruct (all_violations_inv _ _ H1) as (p1 & c1 & i1 & l1 & _ & Hr1 & Hl1 & Hs1).
  destruct (all_violations_inv _ _ H2) as (p2 & c2 & i2 & l2 & _ & Hr2 & Hl2 & Hs2).
  apply scan_line_inv in Hs1 as (Hf1 & Hn1 & Hc1 & _).
  apply scan_line_inv in Hs2 as (Hf2 & Hn2 & Hc2 & _).
  unfold ident in Hid. injection Hid as Hfile Hline Htype Htext.
  assert (c1 = c2) as ->.
  { rewrite <- Hf1, <- Hf2, Hfile in *. rewrite Hr1 in Hr2. by injection Hr2. }
  assert (i1 = i2) as -> by lia.
  assert (l1 = l2) as -> by congruence.
  destruct v1, v2; simpl in *; congruence.
Qed.

Lemma same_ident_same_finding_witness :
  (twice_finding ∈ all_violations twice_world) /\
  ident twice_finding = ident twice_finding /\
  twice_finding = twice_finding.
Proof.
  assert (twice_finding ∈ all_violations twice_world) as Hin.
  { replace (all_violations twice_world) with [twice_finding; twice_finding]
      by (vm_compute; reflexivity).
    by left. }
  split; [exact Hin|]. split; [reflexivity|].
  exact (same_ident_same_finding twice_world twice_finding twice_finding
           Hin Hin eq_refl).
Defined.

(** ** The allowlist (C5) *)

Lemma is_allowed_pattern_iff text :
  is_allowed_pattern text = true <->
  exists pattern, In pattern ALLOWED_PATTERNS /\
    Re.search (Re.pattern pattern) text = true.
Proof. unfold is_allowed_pattern. apply existsb_exists. Qed.

(** The search is a substring search and ignores case. *)
Example allowlist_substring_ignorecase :
  is_allowed_pattern "see EXAMPLE@Example.COM here" = true.
Proof. vm_compute. reflexivity. Qed.

(** The baseline file after a run is the one before it or the findings of
    the run. *)
Lemma baseline_after_run w :
  baseline (fst (run w)) = baseline_file w \/
  baseline (fst (run w)) = Stored (all_violations w).
Proof.
  destruct (baseline_file w) eqn:Hb.
  2: { left. rewrite run_malformed by done. by rewrite <- Hb. }
  all: rewrite run_loaded by (by rewrite Hb).
  all: destruct (truthy (new_violations w)); [by left; rewrite <- Hb|].
  all: destruct (update_requested w); [by right | by left; rewrite <- Hb].
Qed.

(** C5: a finding whose text the allowlist accepts is in no run's list of
    findings, whatever the baseline, and so in no baseline that a run
    writes. *)
Theorem allowlisted_text_is_suppressed w v :
  is_allowed_pattern (v_text v) = true ->
  (v ∉ all_violations w) /\
  (forall file line_num line, v ∉ scan_line file line_num line) /\
  (baseline (fst (run w)) = baseline_file w \/
   exists written, baseline (fst (run w)) = Stored written /\ v ∉ written).
Proof.
  intros Hallowed.
  assert (forall file line_num line, v ∉ scan_line file line_num line) as Hline.
  { intros file line_num line Hin.
    apply scan_line_inv in Hin as (_ & _ & _ & Hnot & _). congruence. }
  assert (v ∉ all_violations w) as Hall.
  { intros Hin. destruct (all_violations_inv _ _ Hin) as (p & c & i & l & _ & _ & _ & Hs).
    by apply Hline in Hs. }
  repeat split; try done.
  destruct (baseline_after_run w) as [Hsame|Hnew]; [by left|].
  right. by exists (all_violations w).
Qed.

Lemma allowlisted_text_is_suppressed_witness :
  is_allowed_pattern (v_text fixture_finding) = true /\
  ((fixture_finding ∉ all_violations fixture_world) /\
   (forall file line_num line, fixture_finding ∉ scan_line file line_num line) /\
   (baseline (fst (run fixture_world)) = baseline_file fixture_world \/
    exists written, baseline (fst (run fixture_world)) = Stored written /\
      fixture_finding ∉ written)).
Proof.
  split; [vm_compute; reflexivity|].
  apply (allowlisted_text_is_suppressed fixture_world fixture_finding).
  vm_compute; reflexivity.
Defined.

(** In the fixture world both candidates are allowlisted, the run reports
    nothing and the baseline it writes is empty. *)
Example fixture_run :
  all_violations fixture_world = [] /\
  Re.finditer (Re.pattern "\b[A-Za-z0-9._%+-]+@[A-Za-z0-9.-]+\.[A-Z|a-z]{2,}\b")
    "write to Example@Example.com or +15551234567" = ["Example@Example.com"] /\
  baseline (fst (run fixture_world)) = Stored [] /\
  snd (run fixture_world) = Exited 0.
Proof. repeat split; vm_compute; reflexivity. Qed.

(** ** Baseline round trip (C6) *)

(** C6: after the findings of a scan are saved as the baseline, a scan of
    the same documents finds the same findings, none of them new, and
    ends with status 0, whatever the arguments. *)
Theorem baseline_round_trip w args :
  let saved := baseline (fst (save_baseline (all_violations w) (start w))) in
  let again := with_baseline w saved args in
  all_violations again = all_violations w /\
  new_violations again = [] /\
  snd (run again) = Exited 0.
Proof.
  intros saved again.
  assert (all_violations again = all_violations w) as Hall
    by apply all_violations_with_baseline.
  assert (new_violations again = []) as Hnew.
  { unfold new_violations. rewrite Hall. apply new_of_nil_iff. intros v Hv.
    change (loaded (baseline_file again)) with (all_violations w).
    unfold baseline_signatures. rewrite elem_of_list_to_set, list_elem_of_fmap.
    by exists v. }
  repeat split; try done.
  rewrite run_loaded by done. by rewrite Hnew.
Qed.

(** ** Unreadable documents (C7) *)

(** C7: a document that cannot be read or decoded is logged and gives no
    finding; the scanning loop goes on and returns what the other
    documents give; the run itself ends at the gate, with the error line
    in its output. *)
Theorem unreadable_file_is_skipped w file_path msg :
  read_text w (path_str file_path) = ReadError msg ->
  emits (scan_file w file_path)
    ["Error scanning " +:+ path_str file_path +:+ ": " +:+ msg] [] /\
  (forall before after, exists lines lines' violations,
     emits (scan_files w (before ++ file_path :: after)) lines violations /\
     emits (scan_files w (before ++ after)) lines' violations /\
     ("Error scanning " +:+ path_str file_path +:+ ": " +:+ msg) ∈ lines) /\
  (file_path ∈ find_md_files (cwd w) -> baseline_file w <> Malformed ->
     (exists code, snd (run w) = Exited code) /\
     ("Error scanning " +:+ path_str file_path +:+ ": " +:+ msg)
       ∈ stdout (fst (run w))).
Proof.
  intros Hread. fold (error_line file_path msg).
  assert (log_of w file_path = [error_line file_path msg]) as Hlog
    by (unfold log_of; by rewrite Hread).
  assert (found_in w file_path = []) as Hfound
    by (unfold found_in; by rewrite Hread).
  split; [|split].
  - rewrite <- Hlog, <- Hfound. apply scan_file_emits.
  - intros before after.
    exists (flat_map (log_of w) (before ++ file_path :: after)),
      (flat_map (log_of w) (before ++ after)),
      (flat_map (found_in w) (before ++ after)).
    split; [|split].
    + replace (flat_map (found_in w) (before ++ after))
        with (flat_map (found_in w) (before ++ file_path :: after)).
      * apply scan_files_emits.
      * rewrite !flat_map_app. simpl. by rewrite Hfound.
    + apply scan_files_emits.
    + apply elem_of_flat_map. exists file_path. split.
      * apply elem_of_app. right. by left.
      * rewrite Hlog. by left.
  - intros Hin Hb.
    assert (error_line file_path msg ∈ head_lines w) as Hhead.
    { unfold head_lines. apply elem_of_app. right.
      apply elem_of_flat_map. exists file_path. split; [done|].
      rewrite Hlog. by left. }
    rewrite run_loaded by done.
    destruct (truthy (new_violations w)); cbn [fst snd stdout say start].
    + split; [by eexists|]. rewrite app_nil_l. apply elem_of_app. by left.
    + split; [by eexists|]. apply elem_of_app. by left.
Qed.

Lemma unreadable_file_is_skipped_witness :
  read_text unreadable_world (path_str ["docs"; "bad.md"])
    = ReadError "'utf-8' codec can't decode byte 0xff in position 0" /\
  snd (run unreadable_world) = Exited 1 /\
  all_violations unreadable_world =
    [ {| v_file := "docs/good.md"; v_line := 1; v_type := "email";
         v_text := "bob@corp.io"; v_context := "mail bob@corp.io" |} ] /\
  emits (scan_file unreadable_world ["docs"; "bad.md"])
    ["Error scanning docs/bad.md: 'utf-8' codec can't decode byte 0xff in position 0"]
    [].
Proof.
  split; [reflexivity|]. split; [vm_compute; reflexivity|].
  split; [vm_compute; reflexivity|].
  exact (proj1 (unreadable_file_is_skipped unreadable_world ["docs"; "bad.md"]
                  "'utf-8' codec can't decode byte 0xff in position 0" eq_refl)).
Defined.

(** ** Loading the baseline (C8) *)

(** C8: with no baseline file the load returns the empty list; with a
    file that is not JSON the exception of [json.load] ends the run, and
    all that has been printed is the two progress lines and what the
    scanning loop logged: no report, no verdict. *)
Theorem baseline_load_contract :
  (forall st, baseline st = Absent -> load_baseline st = (st, Ret [])) /\
  (forall w, baseline_file w = Malformed ->
     snd (run w) = Uncaught "json.decoder.JSONDecodeError" /\
     baseline (fst (run w)) = Malformed /\
     exists log,
       emits (scan_files w (find_md_files (cwd w))) log (all_violations w) /\
       stdout (fst (run w)) =
         [ "🔍 Scanning documentation for PII patterns...";
           "📄 Found " +:+ str_int (len (find_md_files (cwd w))) +:+ " markdown files" ]
         ++ log).
Proof.
  split.
  - intros st Hb. unfold load_baseline. by rewrite Hb.
  - intros w Hb. rewrite (run_malformed w Hb). simpl.
    repeat split; try done.
    exists (flat_map (log_of w) (find_md_files (cwd w))). split; [|done].
    rewrite all_violations_eq. apply scan_files_emits.
Qed.

(** ** Document discovery (C9) *)

Lemma keep_dir_true name :
  keep_dir name = true <-> startswith name "." = false /\ name <> "node_modules".
Proof.
  unfold keep_dir. rewrite andb_true_iff, !negb_true_iff.
  by rewrite String.eqb_neq.
Qed.

(** Every directory that the walk visits is reached through kept names. *)
Lemma os_walk_roots keep : forall d root triple,
  Forall (fun name => keep name = true) root ->
  triple ∈ os_walk keep root d ->
  Forall (fun name => keep name = true) triple.1.1.
Proof.
  fix IH 1. intros [subdirs files] root triple Hroot. simpl.
  rewrite elem_of_cons. intros [->|Hin]; [done|].
  induction subdirs as [|[name sub] rest IHrest]; [by apply elem_of_nil in Hin|].
  destruct (keep name) eqn:Hkeep; [|by apply IHrest].
  apply elem_of_app in Hin as [Hin|Hin]; [|by apply IHrest].
  apply (IH sub (root ++ [name]) triple); [|done].
  apply Forall_app. split; [done|]. by apply Forall_singleton.
Qed.

(** The walk does not look below a name that is not kept. *)
Lemma os_walk_ignores_pruned keep root before name sub sub' after files :
  keep name = false ->
  os_walk keep root (Dir (before ++ (name, sub) :: after) files) =
  os_walk keep root (Dir (before ++ (name, sub') :: after) files).
Proof.
  intros Hkeep. simpl. f_equal.
  - by rewrite !map_app.
  - induction before as [|[n d] before IH]; simpl.
    + by rewrite Hkeep.
    + destruct (keep n); by rewrite IH.
Qed.

(** C9: the walk only visits directories reached through names that are
    neither hidden nor [node_modules]; every discovered document lies in
    such a directory; and what an excluded directory holds has no effect
    on the discovery. *)
Theorem discovery_prunes_excluded_dirs (top : dir) :
  (forall root dirs files, (root, dirs, files) ∈ os_walk keep_dir [] top ->
     Forall (fun name => startswith name "." = false /\ name <> "node_modules") root) /\
  (forall file_path, file_path ∈ find_md_files top ->
     exists root file, file_path = root ++ [file] /\ endswith file ".md" = true /\
       Forall (fun name => startswith name "." = false /\ name <> "node_modules") root) /\
  (forall before name sub sub' after files,
     startswith name "." = true \/ name = "node_modules" ->
     find_md_files (Dir (before ++ (name, sub) :: after) files) =
     find_md_files (Dir (before ++ (name, sub') :: after) files)).
Proof.
  assert (forall root dirs files, (root, dirs, files) ∈ os_walk keep_dir [] top ->
    Forall (fun name => startswith name "." = false /\ name <> "node_modules") root)
    as Hroots.
  { intros root dirs files Hin.
    apply (os_walk_roots keep_dir top [] _ (Forall_nil_2 _)) in Hin. simpl in Hin.
    eapply Forall_impl; [exact Hin|]. intros name. apply keep_dir_true. }
  split; [exact Hroots|]. split.
  - intros file_path. unfold find_md_files. rewrite elem_of_flat_map.
    intros ([[root dirs] files] & Hwalk & Hin).
    apply elem_of_flat_map in Hin as (file & _ & Hfile).
    destruct (endswith file ".md") eqn:Hmd; [|by apply elem_of_nil in Hfile].
    apply list_elem_of_singleton in Hfile as ->.
    exists root, file. repeat split; try done. by apply (Hroots root dirs files).
  - intros before name sub sub' after files Hexcluded. unfold find_md_files.
    rewrite (os_walk_ignores_pruned keep_dir [] before name sub sub'); [done|].
    unfold keep_dir. destruct Hexcluded as [->| ->]; [done|].
    by rewrite andb_false_r.
Qed.

(** A tree with a hidden directory, a dependency cache and a kept one. *)
Example discovery_example :
  find_md_files
    (Dir [ (".git", Dir [] ["HEAD.md"]);
           ("node_modules", Dir [("pkg", Dir [] ["README.md"])] []);
           ("docs", Dir [(".cache", Dir [] ["c.md"]); ("api", Dir [] ["x.md"; "y.txt"])]
                        ["a.md"]) ]
         ["README.md"; ".hidden.md"; "notes.txt"])
  = [ ["README.md"]; [".hidden.md"]; ["docs"; "a.md"]; ["docs"; "api"; "x.md"] ].
Proof. vm_compute. reflexivity. Qed.

(** ** The signature string (C10) *)

(** C10: the signature is not injective on identifying tuples.  The
    baseline entry [colon_entry] and the finding [colon_finding] differ
    in file, line and text and have the same signature; with the entry
    as the whole baseline, the run reports the finding as existing and
    ends with status 0. *)
Theorem signature_collision :
  ident colon_entry <> ident colon_finding /\
  signature colon_entry = signature colon_finding /\
  baseline_file colon_world = Stored [colon_entry] /\
  all_violations colon_world = [colon_finding] /\
  new_violations colon_world = [] /\
  new_violations (with_baseline colon_world Absent []) = [colon_finding] /\
  snd (run colon_world) = Exited 0.
Proof.
  split; [discriminate|].
  repeat split; vm_compute; reflexivity.
Qed.


(** * More of the scanner *)

(** ** Strings *)

Lemma str_app_cons c s t : String c s +:+ t = String c (s +:+ t).
Proof. reflexivity. Qed.

Lemma str_app_nil_l t : "" +:+ t = t.
Proof. reflexivity. Qed.

Lemma str_app_nil_r s : s +:+ "" = s.
Proof.
  induction s as [|c s IH]; [done|]. by rewrite str_app_cons, IH.
Qed.

Lemma str_app_assoc s1 s2 s3 : (s1 +:+ s2) +:+ s3 = s1 +:+ (s2 +:+ s3).
Proof.
  induction s1 as [|c s1 IH]; [done|]. by rewrite !str_app_cons, IH.
Qed.

Lemma str_length_app s1 s2 :
  String.length (s1 +:+ s2) = String.length s1 + String.length s2.
Proof.
  induction s1 as [|c s1 IH]; [done|]. rewrite str_app_cons. simpl. by rewrite IH.
Qed.

Lemma string_forall_app P s1 s2 :
  string_forall P (s1 +:+ s2) = string_forall P s1 && string_forall P s2.
Proof.
  induction s1 as [|c s1 IH]; [done|]. rewrite str_app_cons. simpl.
  by rewrite IH, andb_assoc.
Qed.

Lemma string_forall_impl (P Q : ascii -> bool) s :
  (forall c, P c = true -> Q c = true) ->
  string_forall P s = true -> string_forall Q s = true.
Proof.
  intros HPQ. induction s as [|c s IH]; simpl; [done|].
  rewrite !andb_true_iff. intros [Hc Hs]. auto.
Qed.

Lemma take_app_length s1 s2 : Re.take (String.length s1) (s1 +:+ s2) = s1.
Proof.
  induction s1 as [|c s1 IH]; [by destruct s2|].
  rewrite str_app_cons. simpl. by rewrite IH.
Qed.

Lemma take_length n s : String.length (Re.take n s) <= n.
Proof.
  revert s. induction n as [|n IH]; intros [|c s]; simpl; try lia.
  specialize (IH s). lia.
Qed.

Lemma concat_cons piece pieces :
  String.concat "" (piece :: pieces) = piece +:+ String.concat "" pieces.
Proof.
  destruct pieces as [|piece' pieces]; [|done].
  simpl. by rewrite str_app_nil_r.
Qed.

Lemma all_ascii_In c : In c all_ascii.
Proof.
  unfold all_ascii. apply in_map_iff. exists (nat_of_ascii c).
  split; [apply ascii_nat_embedding|].
  apply in_seq. pose proof (nat_ascii_bounded c). lia.
Qed.

Lemma all_ascii_complete (f : ascii -> bool) :
  forallb f all_ascii = true -> forall c, f c = true.
Proof.
  intros Hall c. rewrite forallb_forall in Hall. apply Hall, all_ascii_In.
Qed.

Lemma count_chars_app P s1 s2 :
  count_chars P (s1 +:+ s2) = count_chars P s1 + count_chars P s2.
Proof.
  induction s1 as [|c s1 IH]; [done|]. rewrite str_app_cons. simpl.
  rewrite IH. lia.
Qed.

(** One accepted character, counted. *)
Lemma count_one (accepts P : ascii -> bool) c :
  accepts c = true ->
  (if forallb (fun c => implb (accepts c) (P c)) all_ascii then 1 else 0)
    <= count_chars P (String c "") /\
  count_chars P (String c "")
    <= (if existsb (fun c => accepts c && P c) all_ascii then 1 else 0).
Proof.
  intros Hc. cbn [count_chars]. split.
  - destruct (forallb (fun c => implb (accepts c) (P c)) all_ascii) eqn:Hall; [|lia].
    pose proof (all_ascii_complete _ Hall c) as H. cbv beta in H.
    rewrite Hc in H. cbn [implb] in H. rewrite H. lia.
  - destruct (P c) eqn:HP; [|lia].
    destruct (existsb (fun c => accepts c && P c) all_ascii) eqn:Hex; [lia|].
    assert (existsb (fun c => accepts c && P c) all_ascii = true) as Hyes.
    { apply existsb_exists. exists c. split; [apply all_ascii_In|].
      by rewrite Hc, HP. }
    congruence.
Qed.

(** ** What the matcher consumes *)

Lemma matchk_repeat r1 lo hi prev s k :
  Re.matchk (Re.Repeat lo hi r1) prev s k
  = repeat_loop (Re.matchk r1) lo hi k (String.length s) 0 prev s.
Proof. reflexivity. Qed.

(** A successful loop has consumed a sequence of pieces, one for each
    iteration, and then called the continuation. *)
Lemma repeat_loop_inv step lo hi k (Q : string -> Prop) :
  (forall prev s k' rest, step prev s k' = Some rest ->
     exists pre prev' s', s = pre +:+ s' /\ Q pre /\ k' prev' s' = Some rest) ->
  forall fuel count prev s rest,
    (forall h, hi = Some h -> count <= h) ->
    repeat_loop step lo hi k fuel count prev s = Some rest ->
    exists pieces prev' s',
      s = String.concat "" pieces +:+ s' /\ Forall Q pieces /\
      lo <= count + length pieces /\
      (forall h, hi = Some h -> count + length pieces <= h) /\
      k prev' s' = Some rest.
Proof.
  intros Hstep.
  assert (forall count prev s rest,
    (forall h, hi = Some h -> count <= h) ->
    (if (lo <=? count)%nat then k prev s else None) = Some rest ->
    exists pieces prev' s',
      s = String.concat "" pieces +:+ s' /\ Forall Q pieces /\
      lo <= count + length pieces /\
      (forall h, hi = Some h -> count + length pieces <= h) /\
      k prev' s' = Some rest) as Hstop.
  { intros count prev s rest Hhi Hk.
    destruct (lo <=? count)%nat eqn:Hlo; [|done].
    apply Nat.leb_le in Hlo.
    exists [], prev, s. simpl. rewrite ?str_app_nil_l.
    repeat split; try done; try lia.
    intros h Hh. specialize (Hhi h Hh). lia. }
  induction fuel as [|fuel IH]; intros count prev s rest Hhi; simpl.
  - by apply Hstop.
  - destruct (Re.below hi count) eqn:Hbelow; [|by apply Hstop].
    destruct (step prev s _) as [rest'|] eqn:Hs; [|by apply Hstop].
    intros [= ->].
    apply Hstep in Hs as (pre & prev1 & s1 & -> & HQ & Hloop).
    apply IH in Hloop as (pieces & prev' & s' & -> & Hall & Hlo & Hmax & Hk).
    + exists (pre :: pieces), prev', s'. repeat split.
      * rewrite concat_cons. by rewrite str_app_assoc.
      * by constructor.
      * simpl. lia.
      * intros h Hh. specialize (Hmax h Hh). simpl. lia.
      * done.
    + intros h ->. simpl in Hbelow. apply Nat.ltb_lt in Hbelow. lia.
Qed.

Lemma concat_pieces_ok r1 pieces :
  Forall (consumed_ok r1) pieces ->
  string_forall (may_consume r1) (String.concat "" pieces) = true /\
  length pieces * min_len r1 <= String.length (String.concat "" pieces) /\
  (forall m, max_len r1 = Some m ->
     String.length (String.concat "" pieces) <= length pieces * m) /\
  (forall P,
     length pieces * min_count P r1 <= count_chars P (String.concat "" pieces) /\
     forall m, max_count P r1 = Some m ->
       count_chars P (String.concat "" pieces) <= length pieces * m).
Proof.
  induction 1 as [|piece pieces (Hc & Hmin & Hmax & Hcount) _
                    (IHc & IHmin & IHmax & IHcount)].
  - simpl. repeat split; try done; intros; lia.
  - rewrite concat_cons.
    rewrite string_forall_app, str_length_app, Hc, IHc. simpl.
    split; [done|]. split; [lia|]. split.
    + intros m Hm. specialize (Hmax m Hm). specialize (IHmax m Hm). lia.
    + intros P. destruct (Hcount P) as [Hlo Hhi]. destruct (IHcount P) as [IHlo IHhi].
      rewrite count_chars_app. split; [lia|].
      intros m Hm. specialize (Hhi m Hm). specialize (IHhi m Hm). lia.
Qed.

(** A successful match has consumed a prefix of the subject that is made
    of characters the pattern accepts and has a length the pattern
    allows, and has then called the continuation on what is left. *)
Lemma matchk_inv r : forall prev s k rest,
  Re.matchk r prev s k = Some rest ->
  exists pre prev' s', s = pre +:+ s' /\ consumed_ok r pre /\ k prev' s' = Some rest.
Proof.
  unfold consumed_ok.
  induction r as [|x|items| |r1 IH1 r2 IH2|r1 IH1|lo hi r1 IH1];
    intros prev s k rest.
  - simpl. intros Hk. exists "", prev, s. simpl.
    repeat split; try done; try lia; intros m [= <-]; lia.
  - cbn [Re.matchk]. destruct s as [|c s]; [intros [=]|].
    destruct (Re.lit_eq x c) eqn:Hc; [|intros [=]]. intros Hk.
    exists (String c ""), (Some c), s. cbn [string_forall may_consume min_len max_len
      String.length min_count max_count]. rewrite Hc.
    split; [reflexivity|]. split; [|exact Hk]. split; [reflexivity|]. split; [lia|].
    split; [intros m [= <-]; lia|].
    intros P. destruct (count_one (Re.lit_eq x) P c Hc) as [Hlo Hhi].
    split; [exact Hlo|]. intros m [= <-]. exact Hhi.
  - cbn [Re.matchk]. destruct s as [|c s]; [intros [=]|].
    destruct (Re.set_has items c) eqn:Hc; [|intros [=]]. intros Hk.
    exists (String c ""), (Some c), s. cbn [string_forall may_consume min_len max_len
      String.length min_count max_count]. rewrite Hc.
    split; [reflexivity|]. split; [|exact Hk]. split; [reflexivity|]. split; [lia|].
    split; [intros m [= <-]; lia|].
    intros P. destruct (count_one (Re.set_has items) P c Hc) as [Hlo Hhi].
    split; [exact Hlo|]. intros m [= <-]. exact Hhi.
  - simpl. destruct (xorb _ _); [|done]. intros Hk.
    exists "", prev, s. simpl.
    repeat split; try done; try lia; intros m [= <-]; lia.
  - simpl. intros H.
    apply IH1 in H as (pre1 & prev1 & s1 & -> & (Hc1 & Hmin1 & Hmax1 & Hcount1) & H).
    apply IH2 in H as (pre2 & prev2 & s2 & -> & (Hc2 & Hmin2 & Hmax2 & Hcount2) & H).
    exists (pre1 +:+ pre2), prev2, s2.
    rewrite str_app_assoc, string_forall_app, str_length_app.
    split; [done|]. split; [|done]. split; [|split; [lia|split]].
    + apply andb_true_iff. split.
      * eapply string_forall_impl; [|exact Hc1]. intros c Hc. simpl. by rewrite Hc.
      * eapply string_forall_impl; [|exact Hc2]. intros c Hc. simpl.
        rewrite Hc. apply orb_true_r.
    + intros m. destruct (max_len r1) as [m1|]; [|done].
      destruct (max_len r2) as [m2|]; [|done]. intros [= <-].
      specialize (Hmax1 _ eq_refl). specialize (Hmax2 _ eq_refl). lia.
    + intros P. destruct (Hcount1 P) as [Hlo1 Hhi1]. destruct (Hcount2 P) as [Hlo2 Hhi2].
      rewrite count_chars_app. simpl. split; [lia|].
      intros m. destruct (max_count P r1) as [m1|]; [|done].
      destruct (max_count P r2) as [m2|]; [|done]. intros [= <-].
      specialize (Hhi1 _ eq_refl). specialize (Hhi2 _ eq_refl). lia.
  - simpl. apply IH1.
  - rewrite matchk_repeat. intros H.
    apply (repeat_loop_inv _ _ _ _ (consumed_ok r1)) in H
      as (pieces & prev' & s' & -> & Hall & Hlo & Hhi & Hk).
    + destruct (concat_pieces_ok _ _ Hall) as (Hc & Hmin & Hmax & Hcount).
      exists (String.concat "" pieces), prev', s'. simpl.
      split; [done|]. split; [|done]. split; [done|]. simpl in Hlo.
      split; [nia|]. split.
      * intros m. destruct hi as [h|]; [|done].
        destruct (max_len r1) as [m1|]; [|done]. intros [= <-].
        specialize (Hhi _ eq_refl). specialize (Hmax _ eq_refl).
        simpl in Hhi. nia.
      * intros P. destruct (Hcount P) as [Hclo Hchi]. split; [nia|].
        intros m. destruct (max_count P r1) as [[|m1]|]; [| |done].
        -- intros [= <-]. specialize (Hchi _ eq_refl). lia.
        -- destruct hi as [h|]; [|done]. intros [= <-].
           specialize (Hhi _ eq_refl). specialize (Hchi _ eq_refl).
           simpl in Hhi. nia.
    + intros prev0 s0 k' rest0 H0. by apply IH1 in H0.
    + intros h _. lia.
Qed.

Lemma match_at_inv r prev s rest :
  Re.match_at r prev s = Some rest ->
  exists pre, s = pre +:+ rest /\ consumed_ok r pre /\
    Re.take (String.length s - String.length rest) s = pre.
Proof.
  unfold Re.match_at. intros H.
  apply matchk_inv in H as (pre & prev' & s' & -> & Hok & [= ->]).
  exists pre. repeat split; try apply Hok.
  rewrite str_length_app.
  replace (String.length pre + String.length rest - String.length rest)
    with (String.length pre) by lia.
  apply take_app_length.
Qed.

(** Each text of [finditer] is a piece of the subject with the shape of
    a match. *)
Lemma finditer_from_inv r : forall s prev skip text,
  In text (Re.finditer_from r prev s skip) ->
  exists before after, s = before +:+ text +:+ after /\ consumed_ok r text.
Proof.
  assert (forall c s text,
    (exists before after, s = before +:+ text +:+ after /\ consumed_ok r text) ->
    exists before after, String c s = before +:+ text +:+ after /\ consumed_ok r text)
    as Hcons.
  { intros c s text (before & after & -> & Hok).
    by exists (String c before), after. }
  assert (forall prev s rest, Re.match_at r prev s = Some rest ->
    exists before after,
      s = before +:+ Re.take (String.length s - String.length rest) s +:+ after /\
      consumed_ok r (Re.take (String.length s - String.length rest) s)) as Hhead.
  { intros prev s rest Hm. apply match_at_inv in Hm as (pre & Hs & Hok & ->).
    exists "", rest. by split. }
  induction s as [|c s IH]; intros prev skip text.
  - destruct skip; cbn [Re.finditer_from]; [|done].
    destruct (Re.match_at r prev "") as [rest|] eqn:Hm; [|done].
    intros [<-|[]]. by apply (Hhead prev).
  - destruct skip as [|skip]; cbn [Re.finditer_from].
    + destruct (Re.match_at r prev (String c s)) as [rest|] eqn:Hm.
      * intros [<-|Hin]; [by apply (Hhead prev)|].
        apply Hcons. by eapply IH.
      * intros Hin. apply Hcons. by eapply IH.
    + intros Hin. apply Hcons. by eapply IH.
Qed.

(** ** Where a finding sits and what its text looks like *)

Lemma finditer_inv r line text :
  text ∈ Re.finditer r line ->
  exists before after, line = before +:+ text +:+ after /\ consumed_ok r text.
Proof. rewrite list_elem_of_In. apply finditer_from_inv. Qed.

Lemma lookup_lt_length {A} (l : list A) i x :
  l !! i = Some x -> (i < length l)%nat.
Proof. intros H. by apply lookup_lt_Some in H. Qed.

(** X1: every finding of a run points at a discovered markdown file that
    could be read, at one of its lines, counted from 1; its text is a
    non-empty piece of that line and its context is the line, stripped
    and cut at 100 characters. *)
Theorem finding_provenance w v :
  v ∈ all_violations w ->
  exists file_path content line before after,
    file_path ∈ find_md_files (cwd w) /\
    v_file v = path_str file_path /\
    read_text w (v_file v) = Content content /\
    (1 <= v_line v <= len (split_newline content))%Z /\
    split_newline content !! Z.to_nat (v_line v - 1) = Some line /\
    line = before +:+ v_text v +:+ after /\
    v_text v <> "" /\
    v_context v = Re.take 100 (strip line).
Proof.
  intros Hv.
  destruct (all_violations_inv _ _ Hv)
    as (file_path & content & i & line & Hp & Hread & Hline & Hscan).
  apply scan_line_inv in Hscan
    as (Hfile & Hnum & Hctx & _ & pattern & Hpat & Htext).
  apply finditer_inv in Htext as (before & after & Hsplit & _ & Hmin & _).
  exists file_path, content, line, before, after.
  pose proof (lookup_lt_length _ _ _ Hline) as Hi.
  unfold len. rewrite Hnum, Hfile.
  replace (Z.to_nat (1 + Z.of_nat i - 1)) with i by lia.
  repeat split; try done; try lia.
  intros Hempty. rewrite Hempty in Hmin. simpl in Hmin.
  assert (6 <= min_len (Re.pattern pattern)); [|lia].
  apply list_elem_of_In in Hpat. simpl in Hpat.
  repeat (destruct Hpat as [[= _ <-]|Hpat]; [vm_compute; lia|]).
  destruct Hpat.
Qed.

Lemma finding_provenance_witness :
  twice_finding ∈ all_violations twice_world /\
  exists file_path content line before after,
    file_path ∈ find_md_files (cwd twice_world) /\
    v_file twice_finding = path_str file_path /\
    read_text twice_world (v_file twice_finding) = Content content /\
    (1 <= v_line twice_finding <= len (split_newline content))%Z /\
    split_newline content !! Z.to_nat (v_line twice_finding - 1) = Some line /\
    line = before +:+ v_text twice_finding +:+ after /\
    v_text twice_finding <> "" /\
    v_context twice_finding = Re.take 100 (strip line).
Proof.
  assert (twice_finding ∈ all_violations twice_world) as Hin.
  { replace (all_violations twice_world) with [twice_finding; twice_finding]
      by (vm_compute; reflexivity).
    by left. }
  split; [exact Hin|]. exact (finding_provenance twice_world twice_finding Hin).
Defined.

(** The shape of the matches of one pattern, read off its compiled form. *)
Lemma pattern_shape pattern (alphabet : ascii -> bool) lo text line :
  forallb (fun c => implb (may_consume (Re.pattern pattern) c) (alphabet c))
    all_ascii = true ->
  min_len (Re.pattern pattern) = lo ->
  text ∈ Re.finditer (Re.pattern pattern) line ->
  lo <= String.length text /\
  string_forall alphabet text = true /\
  (forall hi, max_len (Re.pattern pattern) = Some hi -> String.length text <= hi).
Proof.
  intros Halpha Hlo Htext.
  apply finditer_inv in Htext as (_ & _ & _ & Hchars & Hmin & Hmax & _).
  repeat split; [lia| |done].
  eapply string_forall_impl; [|exact Hchars].
  intros c Hc. pose proof (all_ascii_complete _ Halpha c) as Himpl.
  cbv beta in Himpl. by rewrite Hc in Himpl.
Qed.

Ltac shape_of_text alphabet lo :=
  match goal with
  | Htext : _ ∈ Re.finditer (Re.pattern ?p) ?line |- _ =>
      destruct (pattern_shape p alphabet lo _ line
                  ltac:(vm_compute; reflexivity) ltac:(vm_compute; reflexivity)
                  Htext) as (Hmin & Hchars & Hmax)
  end.

(** X2: in a world whose documents are ASCII texts, a finding has one of
    the four kinds, and its text has the length and the alphabet of that
    kind: an email has at least 6 characters, a phone number 10 to 17, a
    social security number exactly 11, a card number 16 to 19. *)
Theorem finding_kind_and_shape w v :
  ascii_documents w ->
  v ∈ all_violations w ->
  (v_type v = "email" /\ 6 <= String.length (v_text v) /\
     string_forall email_char (v_text v) = true) \/
  (v_type v = "us_phone" /\ 10 <= String.length (v_text v) <= 17 /\
     string_forall us_phone_char (v_text v) = true) \/
  (v_type v = "ssn" /\ String.length (v_text v) = 11 /\
     string_forall ssn_char (v_text v) = true) \/
  (v_type v = "credit_card" /\ 16 <= String.length (v_text v) <= 19 /\
     string_forall credit_card_char (v_text v) = true).
Proof.
  intros _ Hv.
  destruct (all_violations_inv _ _ Hv) as (p & content & i & line & _ & _ & _ & Hscan).
  apply scan_line_inv in Hscan as (_ & _ & _ & _ & pattern & Hpat & Htext).
  apply list_elem_of_In in Hpat. simpl in Hpat.
  destruct Hpat as [[= Ht <-]|[[= Ht <-]|[[= Ht <-]|[[= Ht <-]|[]]]]].
  - left. split; [done|].
    shape_of_text email_char 6.
    by split.
  - right; left. split; [done|].
    shape_of_text us_phone_char 10.
    specialize (Hmax 17 eq_refl). by repeat split.
  - right; right; left. split; [done|].
    shape_of_text ssn_char 11.
    specialize (Hmax 11 eq_refl). split; [lia | done].
  - right; right; right. split; [done|].
    shape_of_text credit_card_char 16.
    specialize (Hmax 19 eq_refl). by repeat split.
Qed.

Lemma twice_world_ascii : ascii_documents twice_world.
Proof. intros p content [= <-]. reflexivity. Defined.

Lemma twice_finding_found : twice_finding ∈ all_violations twice_world.
Proof.
  replace (all_violations twice_world) with [twice_finding; twice_finding]
    by (vm_compute; reflexivity).
  by left.
Defined.

Lemma finding_kind_and_shape_witness :
  ascii_documents twice_world /\
  (twice_finding ∈ all_violations twice_world) /\
  v_type twice_finding = "email" /\
  6 <= String.length (v_text twice_finding) /\
  string_forall email_char (v_text twice_finding) = true.
Proof.
  split; [exact twice_world_ascii|]. split; [exact twice_finding_found|].
  destruct (finding_kind_and_shape twice_world twice_finding
              twice_world_ascii twice_finding_found)
    as [H|[[H _]|[[H _]|[H _]]]]; [exact H | discriminate H ..].
Defined.

(** ** Signatures of scanned findings *)

Lemma uint_string_no_colon d : no_colon (NilEmpty.string_of_uint d) = true.
Proof. induction d; simpl; done. Qed.

Lemma str_int_no_colon n : no_colon (str_int n) = true.
Proof.
  unfold str_int, NilZero.string_of_int, NilZero.string_of_uint.
  destruct (Z.to_int n) as [d|d]; destruct d;
    try done; try apply (uint_string_no_colon (_ d));
    change (no_colon (String "-" ?s)) with (no_colon s);
    try done; apply (uint_string_no_colon (_ d)).
Qed.

Lemma str_int_inj n n' : str_int n = str_int n' -> n = n'.
Proof.
  unfold str_int. intros Heq. apply DecimalZ.to_int_inj.
  assert (forall z, Z.to_int z <> Decimal.Pos Decimal.Nil /\
                    Z.to_int z <> Decimal.Neg Decimal.Nil) as Hnonnil.
  { intros [|p|p]; simpl; split; try done.
    - intros [= H]. by apply DecimalPos.Unsigned.to_uint_nonnil in H.
    - intros [= H]. by apply DecimalPos.Unsigned.to_uint_nonnil in H. }
  destruct (Hnonnil n) as [Hp Hn]. destruct (Hnonnil n') as [Hp' Hn'].
  pose proof (NilZero.isi _ Hp Hn) as H. rewrite Heq in H.
  rewrite (NilZero.isi _ Hp' Hn') in H. by injection H.
Qed.

(** Cutting at the last colon: the part after it has none. *)
Lemma app_colon_inj s1 : forall s2 x1 x2,
  no_colon x1 = true -> no_colon x2 = true ->
  s1 +:+ ":" +:+ x1 = s2 +:+ ":" +:+ x2 -> s1 = s2 /\ x1 = x2.
Proof.
  assert (forall s x, no_colon (s +:+ String ":" x) = false) as Hcolon.
  { intros s x. unfold no_colon. rewrite string_forall_app.
    simpl. by rewrite andb_false_r. }
  induction s1 as [|c s1 IH]; intros [|c' s2] x1 x2 H1 H2;
    rewrite ?str_app_cons, ?str_app_nil_l.
  - by intros [= ->].
  - intros [= <- ->]. by rewrite Hcolon in H1.
  - intros [= -> <-]. by rewrite Hcolon in H2.
  - intros [= -> Heq]. apply IH in Heq as [-> ->]; done.
Qed.

Lemma scanned_text_no_colon w v :
  v ∈ all_violations w -> no_colon (v_text v) = true /\ no_colon (v_type v) = true.
Proof.
  intros Hv.
  destruct (all_violations_inv _ _ Hv) as (p & content & i & line & _ & _ & _ & Hscan).
  apply scan_line_inv in Hscan as (_ & _ & _ & _ & pattern & Hpat & Htext).
  apply list_elem_of_In in Hpat. simpl in Hpat.
  destruct Hpat as [[= <- <-]|[[= <- <-]|[[= <- <-]|[[= <- <-]|[]]]]].
  all: split; [|done].
  all: match goal with
       | Htext : _ ∈ Re.finditer (Re.pattern ?p) ?line |- _ =>
           destruct (pattern_shape p (fun c => negb (c =? ":")%char)
                       (min_len (Re.pattern p)) _ line
                       ltac:(vm_compute; reflexivity) eq_refl Htext)
             as (_ & Hchars & _)
       end.
  all: exact Hchars.
Qed.

(** X3: on the findings that scans produce the signature is injective:
    two findings, of the same run or of two runs, that have the same
    signature have the same file, line, kind and text.  No text and no
    kind of a scanned finding holds a colon. *)
Theorem scanned_signature_injective w1 w2 v1 v2 :
  v1 ∈ all_violations w1 -> v2 ∈ all_violations w2 ->
  signature v1 = signature v2 -> ident v1 = ident v2.
Proof.
  intros H1 H2 Hsig.
  destruct (scanned_text_no_colon _ _ H1) as [Hx1 Ht1].
  destruct (scanned_text_no_colon _ _ H2) as [Hx2 Ht2].
  unfold signature in Hsig.
  assert (forall a b c d : string,
    a +:+ ":" +:+ b +:+ ":" +:+ c +:+ ":" +:+ d
    = ((a +:+ ":" +:+ b) +:+ ":" +:+ c) +:+ ":" +:+ d) as Hassoc.
  { intros a b c d. by rewrite !str_app_assoc. }
  rewrite !Hassoc in Hsig.
  apply app_colon_inj in Hsig as [Hsig Htext]; [|done..].
  apply app_colon_inj in Hsig as [Hsig Htype]; [|done..].
  apply app_colon_inj in Hsig as [Hfile Hline]; [|apply str_int_no_colon..].
  apply str_int_inj in Hline. unfold ident. congruence.
Qed.

Lemma scanned_signature_injective_witness :
  (twice_finding ∈ all_violations twice_world) /\
  signature twice_finding = signature twice_finding /\
  ident twice_finding = ident twice_finding.
Proof.
  assert (twice_finding ∈ all_violations twice_world) as Hin.
  { replace (all_violations twice_world) with [twice_finding; twice_finding]
      by (vm_compute; reflexivity).
    by left. }
  split; [exact Hin|]. split; [reflexivity|].
  exact (scanned_signature_injective twice_world twice_world
           twice_finding twice_finding Hin Hin eq_refl).
Defined.

(** ** No matching line passes unseen *)






(** ** What the discovery finds *)

Lemma os_walk_sound keep : forall d root triple,
  triple ∈ os_walk keep root d ->
  exists rel subdirs files,
    has_dir d rel (Dir subdirs files) /\
    Forall (fun name => keep name = true) rel /\
    triple = (root ++ rel, List.map fst subdirs, files).
Proof.
  fix IH 1. intros [subdirs files] root triple. simpl.
  rewrite elem_of_cons. intros [->|Hin].
  - exists [], subdirs, files. rewrite app_nil_r.
    repeat split; [constructor | constructor].
  - match type of Hin with
    | _ ∈ ?descend subdirs =>
        assert (forall l, (forall x, In x l -> In x subdirs) ->
          triple ∈ descend l ->
          exists rel subdirs' files',
            has_dir (Dir subdirs files) rel (Dir subdirs' files') /\
            Forall (fun name => keep name = true) rel /\
            triple = (root ++ rel, List.map fst subdirs', files')) as Hgen
    end.
    { induction l as [|[name sub] l IHl]; intros Hsub Hl.
      - by apply elem_of_nil in Hl.
      - assert (forall x, In x l -> In x subdirs) as Hsub'
          by (intros x Hx; apply Hsub; by right).
        destruct (keep name) eqn:Hkeep; [|by apply IHl].
        apply elem_of_app in Hl as [Hl|Hl]; [|by apply IHl].
        apply IH in Hl as (rel & subdirs' & files' & Hdir & Hkept & ->).
        exists (name :: rel), subdirs', files'. repeat split.
        + econstructor; [|exact Hdir]. apply Hsub. by left.
        + by constructor.
        + by rewrite <- app_assoc. }
    by apply (Hgen subdirs).
Qed.

Lemma os_walk_descend keep root name sub triple l :
  In (name, sub) l -> keep name = true ->
  triple ∈ os_walk keep (root ++ [name]) sub ->
  triple ∈
    (fix descend (l : list (string * dir)) : list (path * list string * list string) :=
       match l with
       | [] => []
       | (name, sub) :: l' =>
           if keep name then os_walk keep (root ++ [name]) sub ++ descend l'
           else descend l'
       end) l.
Proof.
  intros Hin Hkeep Htriple. induction l as [|[n d] l IHl]; [done|].
  destruct Hin as [[= -> ->]|Hin].
  - rewrite Hkeep. apply elem_of_app. by left.
  - destruct (keep n); [apply elem_of_app; right|]; by apply IHl.
Qed.

Lemma os_walk_complete keep d rel d' :
  has_dir d rel d' ->
  forall root subdirs files, d' = Dir subdirs files ->
  Forall (fun name => keep name = true) rel ->
  (root ++ rel, List.map fst subdirs, files) ∈ os_walk keep root d.
Proof.
  induction 1 as [d|subdirs0 files0 name sub rel d Hin Hdir IH];
    intros root subdirs files -> Hkept.
  - rewrite app_nil_r. simpl. by left.
  - apply Forall_cons in Hkept as [Hname Hkept].
    simpl. right. apply (os_walk_descend keep root name sub); [done..|].
    specialize (IH (root ++ [name]) subdirs files eq_refl Hkept).
    by rewrite <- app_assoc in IH.
Qed.

(** X5: the discovery finds exactly the entries whose name ends in [.md]
    and that are listed in a directory reached from the top through
    names that are neither hidden nor [node_modules]; the name of the
    entry itself may start with a dot. *)
Theorem discovery_exact top file_path :
  file_path ∈ find_md_files top <->
  exists root file subdirs files,
    file_path = root ++ [file] /\
    has_dir top root (Dir subdirs files) /\
    In file files /\
    endswith file ".md" = true /\
    Forall (fun name => startswith name "." = false /\ name <> "node_modules") root.
Proof.
  unfold find_md_files. rewrite elem_of_flat_map. split.
  - intros ([[root dirs] files] & Hwalk & Hin).
    apply elem_of_flat_map in Hin as (file & Hfile & Hpath).
    destruct (endswith file ".md") eqn:Hmd; [|by apply elem_of_nil in Hpath].
    apply list_elem_of_singleton in Hpath as ->.
    apply os_walk_sound in Hwalk as (rel & subdirs & files' & Hdir & Hkept & [= -> _ ->]).
    exists rel, file, subdirs, files'. repeat split; try done.
    + by apply list_elem_of_In.
    + eapply Forall_impl; [exact Hkept|]. intros name. apply keep_dir_true.
  - intros (root & file & subdirs & files & -> & Hdir & Hfile & Hmd & Hkept).
    exists (root, List.map fst subdirs, files). split.
    + apply (os_walk_complete keep_dir top root _ Hdir [] subdirs files eq_refl).
      eapply Forall_impl; [exact Hkept|]. intros name. apply keep_dir_true.
    + apply elem_of_flat_map. exists file. split; [by apply list_elem_of_In|].
      rewrite Hmd. by left.
Qed.

(** ** When the baseline file is written *)

(** The baseline file and the update line after a run, by the baseline
    file before it, the arguments and the new findings. *)
Lemma update_line_cases w :
  let clean_update :=
    match baseline_file w with
    | Malformed => false
    | _ => update_requested w && negb (truthy (new_violations w))
    end in
  baseline (fst (run w))
    = (if clean_update then Stored (all_violations w) else baseline_file w) /\
  (if clean_update
   then last (stdout (fst (run w))) = Some "📝 Updated PII baseline"
   else "📝 Updated PII baseline" ∉ stdout (fst (run w))).
Proof.
  assert (forall v, "📝 Updated PII baseline" <> report_line (new_violations w) v)
    as Hreport.
  { intros v. unfold report_line. by destruct (bool_decide _). }
  assert ("📝 Updated PII baseline" ∉ head_lines w) as Hhead.
  { unfold head_lines. rewrite elem_of_app, !elem_of_cons, elem_of_nil.
    intros [[Hx|[Hx|[]]]|Hx]; try discriminate Hx.
    apply elem_of_flat_map in Hx as (p & _ & Hx). unfold log_of in Hx.
    destruct (read_text w (path_str p)); [by apply elem_of_nil in Hx|].
    apply list_elem_of_singleton in Hx. discriminate Hx. }
  assert ("📝 Updated PII baseline"
            ∉ report_lines (new_violations w) (all_violations w)) as Hrep.
  { unfold report_lines. destruct (truthy (all_violations w)); [|apply not_elem_of_nil].
    rewrite elem_of_cons. intros [Hx|Hx]; [discriminate Hx|].
    apply elem_of_flat_map in Hx as (v & _ & Hx).
    apply list_elem_of_singleton in Hx. by apply Hreport in Hx. }
  assert ("📝 Updated PII baseline" ∉ failure_lines (new_violations w)) as Hfail.
  { unfold failure_lines. rewrite !elem_of_app, !elem_of_cons, elem_of_nil.
    intros [[Hx|[Hx|[]]]|[Hx|[Hx|[Hx|[Hx|[Hx|[]]]]]]]; try discriminate Hx.
    apply elem_of_flat_map in Hx as (v & _ & Hx). unfold new_lines in Hx.
    rewrite !elem_of_cons, elem_of_nil in Hx.
    destruct Hx as [Hx|[Hx|[Hx|[Hx|[Hx|[]]]]]]; discriminate Hx. }
  assert ("📝 Updated PII baseline" <> success_line (all_violations w)) as Hsucc.
  { unfold success_line. by destruct (truthy _). }
  intros clean_update. subst clean_update.
  destruct (baseline_file w) eqn:Hb.
  2: { rewrite run_malformed by done. cbn [fst say stdout baseline start].
       split; [done|]. by rewrite app_nil_l. }
  all: rewrite run_loaded by (by rewrite Hb).
  all: destruct (truthy (new_violations w)); cbn [fst say stdout baseline start negb].
  all: rewrite ?andb_false_r, ?andb_true_r, ?app_nil_l.
  all: try (split; [done|]; rewrite !elem_of_app; by intros [?|[?|?]]).
  all: destruct (update_requested w).
  all: split; try done.
  all: try (rewrite !app_assoc; by apply last_snoc).
  all: rewrite !elem_of_app, elem_of_nil, list_elem_of_singleton.
  all: by intros [?|[?|[?|[]]]].
Qed.

(** X6: among the runs that end by [sys.exit] or by reaching the end of
    [main], that is without an uncaught exception, the baseline file is
    rewritten in one case only: [--update-baseline] is among the
    arguments and the exit status is 0; no finding is new then, the file
    holds the findings of the run and the update line is the last line
    printed.  In every other such run the file is left as it was and the
    update line is not printed. *)
Theorem baseline_written_only_on_clean_update w code :
  snd (run w) = Exited code ->
  let clean_update := update_requested w && (code =? 0)%Z in
  (clean_update = true -> new_violations w = []) /\
  baseline (fst (run w))
    = (if clean_update then Stored (all_violations w) else baseline_file w) /\
  (if clean_update
   then last (stdout (fst (run w))) = Some "📝 Updated PII baseline"
   else "📝 Updated PII baseline" ∉ stdout (fst (run w))).
Proof.
  intros Hend clean_update. subst clean_update.
  pose proof (update_line_cases w) as Hcases. cbv zeta in Hcases.
  destruct (baseline_file w) eqn:Hb.
  2: { by rewrite run_malformed in Hend. }
  all: assert (baseline_file w <> Malformed) as Hok by (by rewrite Hb).
  all: rewrite (run_loaded w Hok) in Hend.
  all: destruct (truthy (new_violations w)) eqn:Hnew;
    cbn [snd] in Hend; injection Hend as <-; cbn [Z.eqb negb] in *.
  all: rewrite ?andb_false_r, ?andb_true_r in *.
  all: split; [|exact Hcases].
  all: try done.
  all: intros _; by apply truthy_false.
Qed.

Lemma baseline_written_only_on_clean_update_witness :
  snd (run fixture_world) = Exited 0 /\
  baseline (fst (run fixture_world)) = Stored (all_violations fixture_world) /\
  last (stdout (fst (run fixture_world))) = Some "📝 Updated PII baseline".
Proof.
  split; [vm_compute; reflexivity|].
  exact (proj2 (baseline_written_only_on_clean_update fixture_world 0
                  ltac:(vm_compute; reflexivity))).
Defined.

(** X7: no run enlarges the set of baseline signatures: every entry of
    the baseline file after a run has a signature that the baseline file
    before the run already had. *)
Theorem run_never_adds_a_signature w :
  baseline_signatures (loaded (baseline (fst (run w))))
    ⊆ baseline_signatures (loaded (baseline_file w)).
Proof.
  destruct (baseline_file w) eqn:Hb.
  2: { rewrite run_malformed by done. cbn [fst say baseline start]. by rewrite Hb. }
  all: rewrite run_loaded by (by rewrite Hb).
  all: destruct (truthy (new_violations w)) eqn:Hnew;
    cbn [fst say baseline start]; rewrite ?Hb; [done|].
  all: destruct (update_requested w); [|done].
  all: apply truthy_false in Hnew; unfold new_violations in Hnew; rewrite Hb in Hnew.
  all: intros sig; unfold baseline_signatures at 1.
  all: rewrite elem_of_list_to_set, list_elem_of_fmap.
  all: intros (v & -> & Hv).
  all: by apply (proj1 (new_of_nil_iff _ _) Hnew).
Qed.

(** ** Classification *)

(** X8: the tag of the listing agrees with the signatures: a finding of
    the list is counted as new, and tagged NEW, exactly when its
    signature is not in the baseline, although the tag is computed by
    comparing whole findings. *)
Theorem new_tag_iff_signature_absent signatures all v :
  v ∈ all ->
  (v ∈ new_of signatures all <-> signature v ∉ signatures) /\
  report_line (new_of signatures all) v =
    "  [" +:+ (if bool_decide (signature v ∈ signatures) then "EXISTING" else "NEW")
    +:+ "] " +:+ v_file v +:+ ":" +:+ str_int (v_line v)
    +:+ " - " +:+ v_type v +:+ ": " +:+ v_text v.
Proof.
  intros Hv.
  assert (v ∈ new_of signatures all <-> signature v ∉ signatures) as Hiff.
  { unfold new_of. rewrite list_elem_of_In, filter_In, <- list_elem_of_In.
    rewrite negb_true_iff, bool_decide_eq_false. tauto. }
  split; [exact Hiff|].
  unfold report_line.
  destruct (bool_decide (signature v ∈ signatures)) eqn:Hsig.
  - apply bool_decide_eq_true in Hsig. rewrite bool_decide_false; [done|]. tauto.
  - apply bool_decide_eq_false in Hsig. rewrite bool_decide_true; [done|]. tauto.
Qed.

Lemma new_tag_iff_signature_absent_witness :
  (colon_finding ∈ [colon_finding]) /\
  (colon_finding ∈ new_of (baseline_signatures [colon_entry]) [colon_finding]
   <-> signature colon_finding ∉ baseline_signatures [colon_entry]).
Proof.
  assert (colon_finding ∈ [colon_finding]) as Hin by (by left).
  split; [exact Hin|].
  exact (proj1 (new_tag_iff_signature_absent
                  (baseline_signatures [colon_entry]) [colon_finding]
                  colon_finding Hin)).
Defined.

(** X9: a larger baseline never makes a finding new: when every
    signature of one baseline is in another, the findings that are new
    against the other are new against the first, in the same order. *)
Theorem larger_baseline_fewer_new (signatures signatures' : gset string) all :
  signatures ⊆ signatures' ->
  sublist (new_of signatures' all) (new_of signatures all).
Proof.
  intros Hsub. unfold new_of. induction all as [|v all IH]; simpl; [done|].
  destruct (bool_decide (signature v ∈ signatures')) eqn:H'; simpl.
  - destruct (bool_decide (signature v ∈ signatures)); simpl; [done|].
    by apply sublist_cons.
  - apply bool_decide_eq_false in H'.
    rewrite bool_decide_false by set_solver. simpl. by apply sublist_skip.
Qed.

Lemma larger_baseline_fewer_new_witness :
  sublist (new_of (baseline_signatures [colon_entry]) [colon_finding])
    (new_of (baseline_signatures []) [colon_finding]).
Proof.
  apply (larger_baseline_fewer_new (baseline_signatures [])
           (baseline_signatures [colon_entry]) [colon_finding]).
  unfold baseline_signatures. simpl. set_solver.
Defined.

(** ** Running again *)

(** X10: a run that passes the gate can be repeated: on the world that
    it leaves behind, with the same documents and the same arguments,
    the next run passes too, finds the same findings and leaves the same
    baseline file. *)
Theorem passing_run_is_stable w :
  snd (run w) = Exited 0 ->
  let w' := with_baseline w (baseline (fst (run w))) (argv w) in
  snd (run w') = Exited 0 /\
  all_violations w' = all_violations w /\
  baseline (fst (run w')) = baseline (fst (run w)).
Proof.
  intros Hpass w'.
  assert (all_violations w' = all_violations w) as Hall
    by apply all_violations_with_baseline.
  assert (update_requested w' = update_requested w) as Hupd by done.
  destruct (baseline_file w) eqn:Hb.
  2: { by rewrite run_malformed in Hpass. }
  all: assert (baseline_file w <> Malformed) as Hok by (by rewrite Hb).
  all: rewrite (run_loaded w Hok) in Hpass.
  all: destruct (truthy (new_violations w)) eqn:Hnew; [done|].
  all: apply truthy_false in Hnew.
  all: assert (baseline_file w' <> Malformed /\ new_violations w' = []
               /\ (update_requested w = false -> baseline_file w' = baseline_file w)
               /\ (update_requested w = true ->
                     baseline_file w' = Stored (all_violations w)))
         as (Hok' & Hnew' & Hsame & Hstored).
  all: try (subst w'; unfold with_baseline, new_violations; cbn [baseline_file];
            rewrite (run_loaded w Hok), Hnew; cbn [fst baseline truthy];
            fold (with_baseline w (if update_requested w then Stored (all_violations w)
                                   else baseline_file w) (argv w));
            rewrite all_violations_with_baseline;
            destruct (update_requested w);
            [ repeat split; try done;
              apply new_of_nil_iff; intros v Hv;
              change (loaded (Stored (all_violations w))) with (all_violations w);
              unfold baseline_signatures;
              rewrite elem_of_list_to_set, list_elem_of_fmap; by exists v
            | rewrite Hb; repeat split; try done; by rewrite <- Hb ]).
  all: rewrite (run_loaded w' Hok'), Hnew'. all: cbn [truthy fst snd baseline].
  all: repeat split; try done.
  all: rewrite Hupd, Hall, (run_loaded w Hok), Hnew; cbn [truthy fst baseline].
  all: destruct (update_requested w); [done|]; by apply Hsame.
Qed.

Lemma passing_run_is_stable_witness :
  snd (run fixture_world) = Exited 0 /\
  snd (run (with_baseline fixture_world (baseline (fst (run fixture_world)))
              (argv fixture_world))) = Exited 0.
Proof.
  split; [vm_compute; reflexivity|].
  exact (proj1 (passing_run_is_stable fixture_world
                  ltac:(vm_compute; reflexivity))).
Defined.

(** ** Letter case *)

Lemma lower_facts c :
  Char.lower (Char.lower c) = Char.lower c /\
  Char.is_word (Char.lower c) = Char.is_word c /\
  Char.is_space (Char.lower c) = Char.is_space c /\
  (Char.is_upper c = true ->
     Char.lower c = Char.swapcase c /\ Char.swapcase (Char.lower c) = c) /\
  (Char.is_upper c = false -> Char.lower c = c).
Proof.
  pose proof (all_ascii_complete
    (fun c =>
       (Char.lower (Char.lower c) =? Char.lower c)%char &&
       Bool.eqb (Char.is_word (Char.lower c)) (Char.is_word c) &&
       Bool.eqb (Char.is_space (Char.lower c)) (Char.is_space c) &&
       implb (Char.is_upper c)
         ((Char.lower c =? Char.swapcase c)%char &&
          (Char.swapcase (Char.lower c) =? c)%char) &&
       implb (negb (Char.is_upper c)) (Char.lower c =? c)%char)
    ltac:(vm_compute; reflexivity) c) as H.
  cbv beta in H. rewrite !andb_true_iff in H.
  destruct H as [[[[H1 H2] H3] H4] H5].
  apply Ascii.eqb_eq in H1. apply Bool.eqb_prop in H2, H3.
  split; [done|]. split; [done|]. split; [done|]. split.
  - intros Hu. rewrite Hu in H4. simpl in H4.
    apply andb_true_iff in H4 as [H4 H4'].
    apply Ascii.eqb_eq in H4, H4'. by split.
  - intros Hu. rewrite Hu in H5. simpl in H5. by apply Ascii.eqb_eq in H5.
Qed.

Lemma lit_eq_lower x c : Re.lit_eq x (Char.lower c) = Re.lit_eq x c.
Proof. unfold Re.lit_eq. by rewrite (proj1 (lower_facts c)). Qed.

Lemma set_has_lower items c : Re.set_has items (Char.lower c) = Re.set_has items c.
Proof.
  unfold Re.set_has. destruct (lower_facts c) as (_ & _ & _ & Hup & Hlow).
  destruct (Char.is_upper c) eqn:Hu.
  - destruct (Hup eq_refl) as [-> ->].
    induction items as [|it items IH]; simpl; [done|].
    by rewrite IH, (orb_comm (Re.item_has it (Char.swapcase c))).
  - by rewrite (Hlow eq_refl).
Qed.

Lemma lower_string_length s : String.length (lower_string s) = String.length s.
Proof. induction s as [|c s IH]; simpl; [done | by rewrite IH]. Qed.

Lemma word_after_lower s : Re.word_after (lower_string s) = Re.word_after s.
Proof. destruct s as [|c s]; simpl; [done|]. apply lower_facts. Qed.

Lemma word_before_lower prev :
  Re.word_before (option_map Char.lower prev) = Re.word_before prev.
Proof. destruct prev as [c|]; simpl; [|done]. apply lower_facts. Qed.

Lemma repeat_loop_0 step lo hi k count prev s :
  repeat_loop step lo hi k 0 count prev s
  = if (lo <=? count)%nat then k prev s else None.
Proof. reflexivity. Qed.

Lemma repeat_loop_S step lo hi k fuel count prev s :
  repeat_loop step lo hi k (S fuel) count prev s
  = if Re.below hi count then
      match step prev s
              (fun prev' s' => repeat_loop step lo hi k fuel (S count) prev' s') with
      | Some rest => Some rest
      | None => if (lo <=? count)%nat then k prev s else None
      end
    else if (lo <=? count)%nat then k prev s else None.
Proof. reflexivity. Qed.

Lemma repeat_loop_lower step lo hi k k' :
  (forall prev s k1 k1', same_up_to_case k1 k1' ->
     step (option_map Char.lower prev) (lower_string s) k1'
     = option_map lower_string (step prev s k1)) ->
  same_up_to_case k k' ->
  forall fuel count,
    same_up_to_case (repeat_loop step lo hi k fuel count)
      (repeat_loop step lo hi k' fuel count).
Proof.
  intros Hstep Hk. induction fuel as [|fuel IH]; intros count prev s.
  - rewrite !repeat_loop_0. destruct (lo <=? count)%nat; [apply Hk | done].
  - rewrite !repeat_loop_S. destruct (Re.below hi count).
    + rewrite (Hstep prev s
                 (fun prev' s' => repeat_loop step lo hi k fuel (S count) prev' s')
                 (fun prev' s' => repeat_loop step lo hi k' fuel (S count) prev' s')
                 (IH (S count))).
      destruct (step prev s _); simpl; [done|].
      destruct (lo <=? count)%nat; [apply Hk | done].
    + destruct (lo <=? count)%nat; [apply Hk | done].
Qed.

(** The matcher does not see the case of the subject. *)
Lemma matchk_lower r : forall prev s k k',
  same_up_to_case k k' ->
  Re.matchk r (option_map Char.lower prev) (lower_string s) k'
  = option_map lower_string (Re.matchk r prev s k).
Proof.
  induction r as [|x|items| |r1 IH1 r2 IH2|r1 IH1|lo hi r1 IH1];
    intros prev s k k' Hk.
  - apply Hk.
  - destruct s as [|c s]; simpl; [done|]. rewrite lit_eq_lower.
    destruct (Re.lit_eq x c); [apply (Hk (Some c)) | done].
  - destruct s as [|c s]; simpl; [done|]. rewrite set_has_lower.
    destruct (Re.set_has items c); [apply (Hk (Some c)) | done].
  - simpl. rewrite word_before_lower, word_after_lower.
    destruct (xorb _ _); [apply Hk | done].
  - simpl. apply IH1. intros prev1 s1. by apply IH2.
  - simpl. by apply IH1.
  - rewrite !matchk_repeat, lower_string_length.
    by apply repeat_loop_lower.
Qed.

Lemma match_at_lower r prev s :
  Re.match_at r (option_map Char.lower prev) (lower_string s)
  = option_map lower_string (Re.match_at r prev s).
Proof. unfold Re.match_at. by apply matchk_lower. Qed.

Lemma take_lower n s : Re.take n (lower_string s) = lower_string (Re.take n s).
Proof.
  revert s. induction n as [|n IH]; intros [|c s]; simpl; try done.
  by rewrite IH.
Qed.

Lemma search_from_eq r prev s :
  Re.search_from r prev s =
    match Re.match_at r prev s with
    | Some _ => true
    | None =>
        match s with
        | String c s' => Re.search_from r (Some c) s'
        | EmptyString => false
        end
    end.
Proof. by destruct s. Qed.

Lemma search_from_lower r : forall s prev,
  Re.search_from r (option_map Char.lower prev) (lower_string s)
  = Re.search_from r prev s.
Proof.
  induction s as [|c s IH]; intros prev.
  - rewrite (search_from_eq r prev), (search_from_eq r (option_map _ prev)).
    rewrite match_at_lower. by destruct (Re.match_at r prev "").
  - rewrite (search_from_eq r prev), (search_from_eq r (option_map _ prev)).
    rewrite match_at_lower.
    destruct (Re.match_at r prev (String c s)); [done|].
    apply (IH (Some c)).
Qed.

Lemma finditer_from_eq r prev s skip :
  Re.finditer_from r prev s skip =
    match skip, s with
    | S skip', String c s' => Re.finditer_from r (Some c) s' skip'
    | S _, EmptyString => []
    | O, _ =>
        match Re.match_at r prev s with
        | Some rest =>
            Re.take (String.length s - String.length rest) s ::
              match s with
              | String c s' =>
                  Re.finditer_from r (Some c) s'
                    (String.length s - String.length rest - 1)
              | EmptyString => []
              end
        | None =>
            match s with
            | String c s' => Re.finditer_from r (Some c) s' O
            | EmptyString => []
            end
        end
    end.
Proof. by destruct s, skip. Qed.

Lemma finditer_from_lower r : forall s prev skip,
  Re.finditer_from r (option_map Char.lower prev) (lower_string s) skip
  = List.map lower_string (Re.finditer_from r prev s skip).
Proof.
  induction s as [|c s IH]; intros prev skip.
  - rewrite (finditer_from_eq r prev), (finditer_from_eq r (option_map _ prev)).
    destruct skip; [|done].
    rewrite match_at_lower. destruct (Re.match_at r prev "") as [rest|]; [|done].
    cbn [option_map List.map]. by rewrite lower_string_length, take_lower.
  - rewrite (finditer_from_eq r prev), (finditer_from_eq r (option_map _ prev)).
    destruct skip as [|skip].
    + rewrite match_at_lower.
      destruct (Re.match_at r prev (String c s)) as [rest|];
        cbn [option_map List.map lower_string].
      * change (String (Char.lower c) (lower_string s))
          with (lower_string (String c s)).
        rewrite !lower_string_length, take_lower. f_equal.
        apply (IH (Some c)).
      * apply (IH (Some c)).
    + cbn [lower_string]. apply (IH (Some c)).
Qed.

Lemma search_lower r text : Re.search r (lower_string text) = Re.search r text.
Proof. unfold Re.search. apply (search_from_lower _ text None). Qed.

Lemma is_allowed_pattern_lower text :
  is_allowed_pattern (lower_string text) = is_allowed_pattern text.
Proof.
  unfold is_allowed_pattern. induction ALLOWED_PATTERNS as [|p ps IH]; simpl; [done|].
  by rewrite IH, search_lower.
Qed.

(** X11: on ASCII texts the allowlist does not see the case: such a text
    is accepted exactly when its lower-case form is, and for each entry
    of the allowlist the search gives the same answer on both. *)
Theorem allowlist_ignores_case text :
  is_ascii text = true ->
  is_allowed_pattern (lower_string text) = is_allowed_pattern text /\
  forall pattern, In pattern ALLOWED_PATTERNS ->
    Re.search (Re.pattern pattern) (lower_string text)
    = Re.search (Re.pattern pattern) text.
Proof.
  intros _. split; [apply is_allowed_pattern_lower|].
  intros pattern _. apply search_lower.
Qed.

Lemma allowlist_ignores_case_witness :
  is_ascii "see EXAMPLE@Example.COM here" = true /\
  is_allowed_pattern (lower_string "see EXAMPLE@Example.COM here") = true /\
  is_allowed_pattern "see EXAMPLE@Example.COM here" = true.
Proof.
  split; [reflexivity|].
  pose proof (proj1 (allowlist_ignores_case "see EXAMPLE@Example.COM here" eq_refl))
    as Hsame.
  assert (is_allowed_pattern "see EXAMPLE@Example.COM here" = true) as Hupper
    by (vm_compute; reflexivity).
  split; [by rewrite Hsame | exact Hupper].
Defined.

Lemma lstrip_lower s : lstrip (lower_string s) = lower_string (lstrip s).
Proof.
  induction s as [|c s IH]; simpl; [done|].
  rewrite (proj1 (proj2 (proj2 (lower_facts c)))).
  by destruct (Char.is_space c).
Qed.

Lemma rstrip_lower s : rstrip (lower_string s) = lower_string (rstrip s).
Proof.
  induction s as [|c s IH]; simpl; [done|].
  rewrite IH, (proj1 (proj2 (proj2 (lower_facts c)))).
  destruct (rstrip s); simpl; [|done]. by destruct (Char.is_space c).
Qed.

Lemma strip_cut_lower line :
  Re.take 100 (strip (lower_string line)) = lower_string (Re.take 100 (strip line)).
Proof. unfold strip. by rewrite lstrip_lower, rstrip_lower, take_lower. Qed.

(** X12: the scan of an ASCII line does not see its case: the findings
    of the lower-case line are those of the line, in the same order and
    with the same kinds, their text and context in lower case. *)
Theorem scan_line_ignores_case file line_num line :
  is_ascii line = true ->
  scan_line file line_num (lower_string line)
  = List.map lower_finding (scan_line file line_num line).
Proof.
  intros _. unfold scan_line. induction PII_PATTERNS as [|[pii_type pattern] pats IH];
    [done|].
  cbn [flat_map]. rewrite map_app, IH. f_equal.
  unfold Re.finditer. rewrite (finditer_from_lower _ line None).
  induction (Re.finditer_from (Re.pattern pattern) None line 0) as [|text texts IHt];
    [done|].
  cbn [flat_map List.map]. rewrite map_app, IHt, is_allowed_pattern_lower. f_equal.
  destruct (is_allowed_pattern text); [done|].
  cbn [negb List.map]. unfold lower_finding. cbn [v_file v_line v_type v_text v_context].
  by rewrite strip_cut_lower.
Qed.

Lemma scan_line_ignores_case_witness :
  is_ascii "Mail Bob@Corp.IO or +1 (555) 123-4567" = true /\
  scan_line "a.md" 1 (lower_string "Mail Bob@Corp.IO or +1 (555) 123-4567")
  = List.map lower_finding
      (scan_line "a.md" 1 "Mail Bob@Corp.IO or +1 (555) 123-4567").
Proof.
  split; [reflexivity|].
  exact (scan_line_ignores_case "a.md" 1
           "Mail Bob@Corp.IO or +1 (555) 123-4567" eq_refl).
Defined.

(** ** The context of a finding *)

Lemma lstrip_head s :
  match lstrip s with
  | String c _ => Char.is_space c = false
  | EmptyString => True
  end.
Proof.
  induction s as [|c s IH]; simpl; [done|].
  destruct (Char.is_space c) eqn:Hc; [exact IH | exact Hc].
Qed.

Lemma rstrip_head s :
  match s with
  | String c _ => Char.is_space c = false
  | EmptyString => True
  end ->
  match rstrip s with
  | String c _ => Char.is_space c = false
  | EmptyString => True
  end.
Proof.
  destruct s as [|c s]; simpl; [done|]. intros Hc.
  destruct (rstrip s); [by rewrite Hc | done].
Qed.

(** X13: the context of a finding has at most 100 characters and does
    not begin with a whitespace character. *)
Theorem context_is_trimmed_and_cut w v :
  v ∈ all_violations w ->
  String.length (v_context v) <= 100 /\
  match v_context v with
  | String c _ => Char.is_space c = false
  | EmptyString => True
  end.
Proof.
  intros Hv.
  destruct (all_violations_inv _ _ Hv) as (p & content & i & line & _ & _ & _ & Hscan).
  apply scan_line_inv in Hscan as (_ & _ & -> & _).
  split; [apply take_length|].
  pose proof (rstrip_head _ (lstrip_head line)) as Hhead.
  fold (strip line) in Hhead. by destruct (strip line).
Qed.

Lemma context_is_trimmed_and_cut_witness :
  (twice_finding ∈ all_violations twice_world) /\
  String.length (v_context twice_finding) <= 100.
Proof.
  assert (twice_finding ∈ all_violations twice_world) as Hin.
  { replace (all_violations twice_world) with [twice_finding; twice_finding]
      by (vm_compute; reflexivity).
    by left. }
  split; [exact Hin|].
  exact (proj1 (context_is_trimmed_and_cut twice_world twice_finding Hin)).
Defined.

(** ** The digits of a finding *)

Lemma pattern_count pattern (P : ascii -> bool) text line :
  text ∈ Re.finditer (Re.pattern pattern) line ->
  min_count P (Re.pattern pattern) <= count_chars P text /\
  (forall m, max_count P (Re.pattern pattern) = Some m -> count_chars P text <= m).
Proof.
  intros Htext.
  apply finditer_inv in Htext as (_ & _ & _ & _ & _ & _ & Hcount).
  apply Hcount.
Qed.

Ltac count_in_text P :=
  match goal with
  | Htext : _ ∈ Re.finditer (Re.pattern ?p) ?line |- _ =>
      let Hlo := fresh "Hlo" in
      let Hhi := fresh "Hhi" in
      destruct (pattern_count p P _ line Htext) as [Hlo Hhi];
      vm_compute (min_count _ _) in Hlo;
      try (specialize (Hhi _ ltac:(vm_compute; reflexivity)))
  end.

(** X14: in a world whose documents are ASCII texts, an email finding
    has exactly one [@] and at least one dot in its text; a phone number
    has ten or eleven digits; a social security number has nine digits
    and two hyphens; a card number has sixteen digits. *)
Theorem finding_digits w v :
  ascii_documents w ->
  v ∈ all_violations w ->
  (v_type v = "email" ->
     count_chars (fun c => c =? "@")%char (v_text v) = 1 /\
     1 <= count_chars (fun c => c =? ".")%char (v_text v)) /\
  (v_type v = "us_phone" ->
     10 <= count_chars Char.is_digit (v_text v) <= 11) /\
  (v_type v = "ssn" ->
     count_chars Char.is_digit (v_text v) = 9 /\
     count_chars (fun c => c =? "-")%char (v_text v) = 2) /\
  (v_type v = "credit_card" ->
     count_chars Char.is_digit (v_text v) = 16).
Proof.
  intros _ Hv.
  destruct (all_violations_inv _ _ Hv) as (p & content & i & line & _ & _ & _ & Hscan).
  apply scan_line_inv in Hscan as (_ & _ & _ & _ & pattern & Hpat & Htext).
  apply list_elem_of_In in Hpat. simpl in Hpat.
  destruct Hpat as [[= Ht <-]|[[= Ht <-]|[[= Ht <-]|[[= Ht <-]|[]]]]];
    rewrite <- Ht; (split; [|split; [|split]]); intros Hkind; try discriminate Hkind.
  - count_in_text (fun c => c =? "@")%char.
    count_in_text (fun c => c =? ".")%char.
    split; lia.
  - count_in_text Char.is_digit. lia.
  - count_in_text Char.is_digit.
    count_in_text (fun c => c =? "-")%char.
    split; lia.
  - count_in_text Char.is_digit. lia.
Qed.

Lemma finding_digits_witness :
  ascii_documents twice_world /\
  (twice_finding ∈ all_violations twice_world) /\
  count_chars (fun c => c =? "@")%char (v_text twice_finding) = 1.
Proof.
  split; [exact twice_world_ascii|]. split; [exact twice_finding_found|].
  exact (proj1 (proj1 (finding_digits twice_world twice_finding
                         twice_world_ascii twice_finding_found) eq_refl)).
Defined.
